(** * A mark-and-sweep collector for a small stack machine

    Shallow embedding of [main.c]: the object model, the VM with its operand
    stack, the recursive [mark], [markAll], the pointer-to-pointer [sweep],
    [gc], [newObject], [pushInt] and [pushPair], followed by the properties
    of the collector.

    Modelling choices, all read off the C source:
    - an [Object*] is an optional location ([None] is [NULL]); the memory
      handed out by [malloc] is a finite map from locations to objects, and
      [free] removes the location from the map, so that a later access
      through a stale pointer is visible as a failed lookup;
    - the [int] counters of the VM are integers; an operation whose result
      leaves the range of a 32-bit [int] is undefined in C and yields
      [Undef] here;
    - [assert] prints its message and calls [exit(1)]: the outcome [Fatal]
      carries the state at the moment the process ends, whose [out] field
      ends with the message;
    - [mark] and the loop of [sweep] are not structurally recursive; they are
      defined with a recursion budget, and the theorems show that the budget
      used by [gc] is always enough. *)

From stdpp Require Import gmap strings list fin_maps.
From Stdlib Require Import ZArith Lia.

Local Open Scope Z_scope.

(** * The program

    ** Constants *)

Definition STACK_MAX : nat := 256.
Definition INIT_OBJ_NUM_MAX : Z := 8.

Definition INT_MIN : Z := -2147483648.
Definition INT_MAX : Z := 2147483647.

(** ** Object model *)

Abbreviation loc := positive.
Abbreviation ptr := (option loc).

Inductive ObjectType := OBJ_INT | OBJ_PAIR.

Global Instance ObjectType_eq_dec : EqDecision ObjectType.
Proof. solve_decision. Defined.

(** [struct sObject].  The anonymous union is kept as three fields: the code
    writes and reads [value] only on [OBJ_INT] objects and [head]/[tail] only
    on [OBJ_PAIR] objects.  A field that has not been assigned since [malloc]
    holds [None] (for a pointer) or [0]; such a pointer cannot be followed. *)
Record Object := mkObject {
  next : ptr;
  marked : bool;
  type : ObjectType;
  value : Z;
  head : ptr;
  tail : ptr
}.

Global Instance Object_eq_dec : EqDecision Object.
Proof. solve_decision. Defined.

Abbreviation Heap := (gmap loc Object).

(** [struct VM].  [stack] is the array of [STACK_MAX] slots, [stackSize] the
    number of slots in use. *)
Record VM := mkVM {
  numObjects : Z;
  maxObjects : Z;
  firstObject : ptr;
  stack : list ptr;
  stackSize : nat
}.

(** The machine: the VM, the objects in dynamic memory, and what has been
    printed so far. *)
Record State := mkState {
  vm : VM;
  heap : Heap;
  out : list string
}.

(** ** Outcomes *)

(** A call returns ([Ok]), ends the process through [assert] ([Fatal], with
    the state at exit), has undefined behaviour ([Undef]: a null or stale
    pointer is followed, an [int] overflows), or runs out of the recursion
    budget of the model ([Timeout]). *)
Inductive result (A : Type) :=
| Ok (a : A)
| Fatal (s : State)
| Undef
| Timeout.
Arguments Ok {A} a.
Arguments Fatal {A} s.
Arguments Undef {A}.
Arguments Timeout {A}.

Definition bind {A B} (r : result A) (k : A → result B) : result B :=
  match r with
  | Ok a => k a
  | Fatal s => Fatal s
  | Undef => Undef
  | Timeout => Timeout
  end.

Notation "'let*' x ':=' r 'in' k" := (bind r (λ x, k))
  (at level 10, x pattern, r at level 100, k at level 200, only parsing).

(** Signed arithmetic on [int]. *)
Definition int_ok (z : Z) : bool := (INT_MIN <=? z) && (z <=? INT_MAX).

Definition arith (z : Z) : result Z := if int_ok z then Ok z else Undef.

(** ** Field updates *)

Definition set_marked (b : bool) (o : Object) : Object :=
  mkObject (next o) b (type o) (value o) (head o) (tail o).
Definition set_next (p : ptr) (o : Object) : Object :=
  mkObject p (marked o) (type o) (value o) (head o) (tail o).
Definition set_value (v : Z) (o : Object) : Object :=
  mkObject (next o) (marked o) (type o) v (head o) (tail o).
Definition set_head (p : ptr) (o : Object) : Object :=
  mkObject (next o) (marked o) (type o) (value o) p (tail o).
Definition set_tail (p : ptr) (o : Object) : Object :=
  mkObject (next o) (marked o) (type o) (value o) (head o) p.

Definition with_heap (h : Heap) (s : State) : State :=
  mkState (vm s) h (out s).
Definition with_vm (v : VM) (s : State) : State :=
  mkState v (heap s) (out s).
Definition printf (line : string) (s : State) : State :=
  mkState (vm s) (heap s) (out s ++ [line]).

(** ** [assert], [newVM], [push], [pop] *)

Definition assert (condition : bool) (message : string) (s : State) : result unit :=
  if condition then Ok tt else Fatal (printf message s).

Definition newVM : State :=
  mkState (mkVM 0 INIT_OBJ_NUM_MAX None (replicate STACK_MAX None) 0%nat) ∅ [].

Definition push (s : State) (v : ptr) : result State :=
  let* _ := assert (bool_decide (stackSize (vm s) < STACK_MAX)%nat) "Stack overflow!" s in
  let m := vm s in
  Ok (with_vm (mkVM (numObjects m) (maxObjects m) (firstObject m)
                    (<[stackSize m := v]> (stack m)) (S (stackSize m))) s).

Definition pop (s : State) : result (State * ptr) :=
  let* _ := assert (bool_decide (0 < stackSize (vm s))%nat) "Stack underflow!" s in
  let m := vm s in
  let n := pred (stackSize m) in
  match stack m !! n with
  | Some v =>
      Ok (with_vm (mkVM (numObjects m) (maxObjects m) (firstObject m) (stack m) n) s, v)
  | None => Undef
  end.

(** ** [mark] and [markAll] *)

(** [mark(object)]; [fuel] bounds the depth of the recursion. *)
Fixpoint mark_fuel (fuel : nat) (h : Heap) (object : ptr) : result Heap :=
  match fuel with
  | O => Timeout
  | S fuel' =>
      match object with
      | None => Undef
      | Some l =>
          match h !! l with
          | None => Undef
          | Some o =>
              if marked o then Ok h
              else
                let h1 := <[l := set_marked true o]> h in
                match type o with
                | OBJ_PAIR =>
                    let* h2 := mark_fuel fuel' h1 (head o) in
                    mark_fuel fuel' h2 (tail o)
                | OBJ_INT => Ok h1
                end
          end
      end
  end.

(** The depth of the recursion never exceeds the number of objects plus one. *)
Definition mark (h : Heap) (object : ptr) : result Heap :=
  mark_fuel (S (size h)) h object.

Fixpoint mark_roots (roots : list ptr) (h : Heap) : result Heap :=
  match roots with
  | [] => Ok h
  | r :: roots' => let* h' := mark h r in mark_roots roots' h'
  end.

(** The loop of [markAll] visits [stack[0]], ..., [stack[stackSize - 1]]. *)
Definition markAll (s : State) : result State :=
  let* h := mark_roots (take (stackSize (vm s)) (stack (vm s))) (heap s) in
  Ok (with_heap h s).

(** ** [sweep] *)

(** The variable [Object** object] of [sweep] holds the address of a pointer
    cell: either [&vm->firstObject] or [&o->next] for an object [o]. *)
Inductive Link := LFirst | LNext (l : loc).

Definition read_link (s : State) (object : Link) : result ptr :=
  match object with
  | LFirst => Ok (firstObject (vm s))
  | LNext l =>
      match heap s !! l with
      | Some o => Ok (next o)
      | None => Undef
      end
  end.

Definition write_link (s : State) (object : Link) (p : ptr) : State :=
  match object with
  | LFirst =>
      let m := vm s in
      with_vm (mkVM (numObjects m) (maxObjects m) p (stack m) (stackSize m)) s
  | LNext l => with_heap (alter (set_next p) l (heap s)) s
  end.

Definition set_numObjects (n : Z) (s : State) : State :=
  let m := vm s in
  with_vm (mkVM n (maxObjects m) (firstObject m) (stack m) (stackSize m)) s.

Definition set_maxObjects (n : Z) (s : State) : State :=
  let m := vm s in
  with_vm (mkVM (numObjects m) n (firstObject m) (stack m) (stackSize m)) s.

Fixpoint sweep_loop (fuel : nat) (s : State) (object : Link) : result State :=
  match fuel with
  | O => Timeout
  | S fuel' =>
      let* p := read_link s object in
      match p with
      | None => Ok s
      | Some l =>
          match heap s !! l with
          | None => Undef
          | Some o =>
              if negb (marked o) then
                let unreached := l in
                let s1 := write_link s object (next o) in
                let s2 := with_heap (delete unreached (heap s1)) s1 in
                let* n := arith (numObjects (vm s2) - 1) in
                sweep_loop fuel' (set_numObjects n s2) object
              else
                let s1 := with_heap (<[l := set_marked false o]> (heap s)) s in
                sweep_loop fuel' s1 (LNext l)
          end
      end
  end.

(** One iteration per object of the list and a last one that finds [NULL]. *)
Definition sweep (s : State) : result State :=
  sweep_loop (S (size (heap s))) s LFirst.

(** ** [gc] *)

(** The local [numObjects] of [gc] is assigned and never read. *)
Definition gc (s : State) : result State :=
  let* s1 := markAll s in
  let* s2 := sweep s1 in
  let* n := arith (numObjects (vm s2) * 2) in
  Ok (set_maxObjects n s2).

(** ** [newObject], [pushInt], [pushPair], [freeVM] *)

(** [malloc] returns the address of a block that is not in use; which one
    is immaterial: the proofs rely on [malloc_fresh] only.  The block may be
    one that an earlier [free] released. *)
Definition malloc (h : Heap) : loc := fresh (dom h).

Definition newObject (s : State) (ty : ObjectType) : result (State * loc) :=
  let* s1 :=
    (if numObjects (vm s) =? maxObjects (vm s)
     then gc (printf "Auto gc is ran" s)
     else Ok s) in
  let object := malloc (heap s1) in
  let o := mkObject (firstObject (vm s1)) false ty 0 None None in
  let m := vm s1 in
  let* n := arith (numObjects m + 1) in
  Ok (mkState (mkVM n (maxObjects m) (Some object) (stack m) (stackSize m))
              (<[object := o]> (heap s1)) (out s1),
      object).

Definition store (f : Object → Object) (l : loc) (s : State) : State :=
  with_heap (alter f l (heap s)) s.

Definition pushInt (s : State) (intValue : Z) : result State :=
  let* (s1, object) := newObject s OBJ_INT in
  let s2 := store (set_value intValue) object s1 in
  push s2 (Some object).

Definition pushPair (s : State) : result (State * loc) :=
  let* (s1, object) := newObject s OBJ_PAIR in
  let* (s2, t) := pop s1 in
  let s3 := store (set_tail t) object s2 in
  let* (s4, hd) := pop s3 in
  let s5 := store (set_head hd) object s4 in
  let* s6 := push s5 (Some object) in
  Ok (s6, object).

Definition set_stackSize (n : nat) (s : State) : State :=
  let m := vm s in
  with_vm (mkVM (numObjects m) (maxObjects m) (firstObject m) (stack m) n) s.

(** [freeVM] empties the stack and collects; the storage of the VM itself is
    released afterwards, and the result is the state the collection left. *)
Definition freeVM (s : State) : result State :=
  gc (set_stackSize 0 s).

(** ** Programs that drive the machine *)

Definition unwrap {A} (d : A) (r : result A) : A :=
  match r with Ok a => a | _ => d end.

(** A test scenario is a list of calls; the two pairs of the fourth and fifth
    scenario are linked into a cycle by assignments to their [tail]. *)
Inductive Op :=
| OpPushInt (v : Z)
| OpPushPair
| OpPop
| OpGc
| OpSetHead (a b : loc)
| OpSetTail (a b : loc).

Definition is_pair (h : Heap) (a : loc) : bool :=
  bool_decide (type <$> h !! a = Some OBJ_PAIR).

Definition is_alloc (h : Heap) (a : loc) : bool :=
  bool_decide (is_Some (h !! a)).

Definition run_op (o : Op) (s : State) : result State :=
  match o with
  | OpPushInt v => pushInt s v
  | OpPushPair => let* (s', _) := pushPair s in Ok s'
  | OpPop => let* (s', _) := pop s in Ok s'
  | OpGc => gc s
  | OpSetHead a b =>
      if is_pair (heap s) a && is_alloc (heap s) b
      then Ok (store (set_head (Some b)) a s) else Undef
  | OpSetTail a b =>
      if is_pair (heap s) a && is_alloc (heap s) b
      then Ok (store (set_tail (Some b)) a s) else Undef
  end.

Fixpoint run (ops : list Op) (s : State) : result State :=
  match ops with
  | [] => Ok s
  | o :: ops' => let* s' := run_op o s in run ops' s'
  end.

(** The third scenario of [main.c]: a pair of two pairs. *)
Definition nested_ops : list Op :=
  [OpPushInt 1; OpPushInt 2; OpPushPair; OpPushInt 3; OpPushInt 4; OpPushPair;
   OpPushPair].

(** The fourth and fifth scenario of [main.c] up to the point where the two
    pairs refer to each other: integers 2 and 4 are garbage. *)
Definition cycle_ops : list Op :=
  [OpPushInt 1; OpPushInt 2; OpPushPair; OpPushInt 3; OpPushInt 4; OpPushPair;
   OpSetTail 3 6; OpSetTail 6 3].

Definition cycle_state : State := unwrap newVM (run cycle_ops newVM).

(** The state after the mark phase of a collection in the cyclic scenario. *)
Definition cycle_marked : State := unwrap newVM (markAll cycle_state).

Definition cycle_registry : list loc := [6; 5; 4; 3; 2; 1]%positive.

(** The fifth scenario of [main.c] just before the allocation that finds
    [numObjects == maxObjects]: eight objects, four of them on the stack. *)
Definition full_ops : list Op := cycle_ops ++ [OpPushInt 5; OpPushInt 6].

Definition full_state : State := unwrap newVM (run full_ops newVM).

(** The second scenario of [main.c]: two integers pushed and popped again. *)
Definition popped_ops : list Op := [OpPushInt 1; OpPushInt 2; OpPop; OpPop].

Definition popped_state : State := unwrap newVM (run popped_ops newVM).

Definition popped_collected : State := unwrap newVM (gc popped_state).

(** A heap in the middle of a trace: the pair at 2 is marked already, the
    pair at 1 that refers to it and the integer at 3 behind it are not. *)
Definition midtrace_heap : Heap :=
  list_to_map
    [(1%positive, mkObject (Some 2%positive) false OBJ_PAIR 0 (Some 2%positive) (Some 2%positive));
     (2%positive, mkObject (Some 3%positive) true OBJ_PAIR 0 (Some 3%positive) (Some 3%positive));
     (3%positive, mkObject None false OBJ_INT 5 None None)].

(** A stack filled to its capacity: the next [pushInt] allocates its object
    and then ends the process. *)
Definition filled_state : State :=
  unwrap newVM (run (replicate STACK_MAX (OpPushInt 0)) newVM).

(** * Specification vocabulary

    ** The object graph *)

Definition marked_in (h : Heap) (l : loc) : Prop := marked <$> h !! l = Some true.
Definition unmarked_in (h : Heap) (l : loc) : Prop := marked <$> h !! l = Some false.

(** [edge h a b]: [a] is a pair whose head or tail is [b]. *)
Definition edge (h : Heap) (a b : loc) : Prop :=
  ∃ o, h !! a = Some o ∧ type o = OBJ_PAIR ∧ (head o = Some b ∨ tail o = Some b).

Definition reach (h : Heap) : loc → loc → Prop := rtc (edge h).

(** A path all of whose objects are still unmarked. *)
Inductive upath (h : Heap) : loc → loc → Prop :=
| upath_here l : unmarked_in h l → upath h l l
| upath_step l c x : unmarked_in h l → edge h l c → upath h c x → upath h l x.

(** No pair refers to storage that is not allocated. *)
Definition heap_wf (h : Heap) : Prop :=
  ∀ l o, h !! l = Some o → type o = OBJ_PAIR →
    (∃ a, head o = Some a ∧ is_Some (h !! a)) ∧
    (∃ b, tail o = Some b ∧ is_Some (h !! b)).

(** The two heaps hold the same objects up to their mark bits. *)
Definition same_shape (h h' : Heap) : Prop :=
  ∀ l, set_marked false <$> h !! l = set_marked false <$> h' !! l.

(** Every marked object outside [G] has only marked children. *)
Definition closed_except (G : loc → Prop) (h : Heap) : Prop :=
  ∀ a b, marked_in h a → ¬ G a → edge h a b → marked_in h b.

Definition closed (h : Heap) : Prop := closed_except (λ _, False) h.

Definition unmarked (h : Heap) : gset loc :=
  dom (filter (λ kv, marked kv.2 = false) h).

(** What a call [mark(l)] that turns [h] into [h'] has achieved. *)
Definition mark_post (h : Heap) (l : loc) (h' : Heap) : Prop :=
  same_shape h h' ∧
  (∀ x, marked_in h x → marked_in h' x) ∧
  marked_in h' l ∧
  (∀ x, marked_in h' x → marked_in h x ∨ upath h l x) ∧
  (∀ G, closed_except G h → closed_except G h').

(** A decision procedure for [heap_wf]. *)
Definition child_ok (h : Heap) (p : ptr) : bool :=
  match p with
  | Some a => bool_decide (is_Some (h !! a))
  | None => false
  end.

Definition object_ok (h : Heap) (o : Object) : bool :=
  match type o with
  | OBJ_PAIR => child_ok h (head o) && child_ok h (tail o)
  | OBJ_INT => true
  end.

Definition heap_wfb (h : Heap) : bool :=
  forallb (λ kv, object_ok h kv.2) (map_to_list h).

(** ** The registry list *)

(** [reg_list h p L]: following [next] from [p] visits exactly the objects
    [L], in this order, and then reaches [NULL]. *)
Fixpoint reg_list (h : Heap) (p : ptr) (L : list loc) : Prop :=
  match L with
  | [] => p = None
  | l :: L' => p = Some l ∧ ∃ o, h !! l = Some o ∧ reg_list h (next o) L'
  end.

Global Instance marked_in_dec h l : Decision (marked_in h l).
Proof. unfold marked_in. apply _. Defined.

(** The cell that [object] points to does not lie in the part of the list
    still to be visited. *)
Definition link_ok (s : State) (object : Link) (L : list loc) : Prop :=
  match object with
  | LFirst => True
  | LNext p => is_Some (heap s !! p) ∧ p ∉ L
  end.

(** The same object up to [next] and [marked]. *)
Definition same_payload (o o' : Object) : Prop :=
  type o' = type o ∧ value o' = value o ∧ head o' = head o ∧ tail o' = tail o.

(** What the loop of [sweep], started at the cell [object] whose list is
    [L], has achieved when it leaves [s'] behind. *)
Definition sweep_post (s : State) (object : Link) (L : list loc) (s' : State) : Prop :=
  let survivors := filter (marked_in (heap s)) L in
  (∃ p', read_link s' object = Ok p' ∧ reg_list (heap s') p' survivors) ∧
  (∀ l, l ∈ L → unmarked_in (heap s) l → heap s' !! l = None) ∧
  (∀ l o, l ∈ L → heap s !! l = Some o → marked o = true →
     ∃ o', heap s' !! l = Some o' ∧ marked o' = false ∧ same_payload o o') ∧
  (∀ l, l ∉ L → object ≠ LNext l → heap s' !! l = heap s !! l) ∧
  (∀ p, object = LNext p →
     ∃ o o', heap s !! p = Some o ∧ heap s' !! p = Some o' ∧ o' = set_next (next o') o) ∧
  numObjects (vm s') = numObjects (vm s) - Z.of_nat (length L - length survivors) ∧
  maxObjects (vm s') = maxObjects (vm s) ∧
  stack (vm s') = stack (vm s) ∧
  stackSize (vm s') = stackSize (vm s) ∧
  out s' = out s ∧
  (object ≠ LFirst → firstObject (vm s') = firstObject (vm s)).

Definition sweep_keep (s : State) (l : loc) (o : Object) : State :=
  with_heap (<[l := set_marked false o]> (heap s)) s.

Definition sweep_free (s : State) (object : Link) (l : loc) (o : Object) : State :=
  let s1 := write_link s object (next o) in
  set_numObjects (numObjects (vm s) - 1) (with_heap (delete l (heap s1)) s1).

Global Instance unmarked_in_dec h l : Decision (unmarked_in h l).
Proof. unfold unmarked_in. apply _. Defined.

(** ** Roots and liveness *)

(** [live_from roots h x]: [x] can be reached from one of the [roots]. *)
Definition live_from (roots : list ptr) (h : Heap) (x : loc) : Prop :=
  ∃ r, Some r ∈ roots ∧ reach h r x.

Definition roots (s : State) : list ptr := take (stackSize (vm s)) (stack (vm s)).

Definition live (s : State) (x : loc) : Prop := live_from (roots s) (heap s) x.

Definition root_ok (h : Heap) (r : ptr) : Prop := ∃ l, r = Some l ∧ is_Some (h !! l).

(** ** The invariant of the machine between two operations *)

Record vm_inv (s : State) : Prop := {
  inv_registry : ∃ L, reg_list (heap s) (firstObject (vm s)) L ∧
                      (∀ l, is_Some (heap s !! l) → l ∈ L) ∧
                      numObjects (vm s) = Z.of_nat (length L);
  inv_unmarked : ∀ l o, heap s !! l = Some o → marked o = false;
  inv_wf : heap_wf (heap s);
  inv_roots : Forall (root_ok (heap s)) (roots s);
  inv_stack_length : length (stack (vm s)) = STACK_MAX;
  inv_stackSize : (stackSize (vm s) ≤ STACK_MAX)%nat;
  inv_range : numObjects (vm s) ≤ INT_MAX
}.

(** The state a collection leaves behind. *)
Record gc_post (s s' : State) : Prop := {
  gc_inv : vm_inv s';
  gc_stack : stack (vm s') = stack (vm s);
  gc_stackSize : stackSize (vm s') = stackSize (vm s);
  gc_out : out s' = out s;
  gc_alloc : ∀ l, is_Some (heap s' !! l) ↔ live s l;
  gc_payload : ∀ l o, heap s !! l = Some o → live s l →
                 ∃ o', heap s' !! l = Some o' ∧ same_payload o o';
  gc_count : numObjects (vm s') ≤ numObjects (vm s);
  gc_threshold : maxObjects (vm s') = numObjects (vm s') * 2
}.

(** ** Allocation *)

(** The first statement of [newObject]. *)
Definition collect_if_due (s : State) : result State :=
  if numObjects (vm s) =? maxObjects (vm s)
  then gc (printf "Auto gc is ran" s)
  else Ok s.

(** The state [newObject] builds from the state [s0] in which it calls
    [malloc]. *)
Definition allocated (ty : ObjectType) (s0 : State) : State :=
  mkState (mkVM (numObjects (vm s0) + 1) (maxObjects (vm s0))
                (Some (malloc (heap s0))) (stack (vm s0)) (stackSize (vm s0)))
          (<[malloc (heap s0) := mkObject (firstObject (vm s0)) false ty 0 None None]>
             (heap s0))
          (out s0).

(** The states [pushInt] and [pushPair] build from [s0]. *)
Definition pushed_int (v : Z) (s0 : State) : State :=
  let l := malloc (heap s0) in
  mkState (mkVM (numObjects (vm s0) + 1) (maxObjects (vm s0)) (Some l)
                (<[stackSize (vm s0) := Some l]> (stack (vm s0)))
                (S (stackSize (vm s0))))
          (<[l := mkObject (firstObject (vm s0)) false OBJ_INT v None None]> (heap s0))
          (out s0).

Definition pushed_pair (hd tl : ptr) (s0 : State) : State :=
  let l := malloc (heap s0) in
  mkState (mkVM (numObjects (vm s0) + 1) (maxObjects (vm s0)) (Some l)
                (<[(stackSize (vm s0) - 2)%nat := Some l]> (stack (vm s0)))
                (stackSize (vm s0) - 1)%nat)
          (<[l := mkObject (firstObject (vm s0)) false OBJ_PAIR 0 hd tl]> (heap s0))
          (out s0).

(** What the first statement of [newObject] guarantees. *)
Record due_post (s s0 : State) : Prop := {
  due_inv : vm_inv s0;
  due_stack : stack (vm s0) = stack (vm s);
  due_stackSize : stackSize (vm s0) = stackSize (vm s);
  due_live : ∀ l o, heap s !! l = Some o → live s l →
               ∃ o', heap s0 !! l = Some o' ∧ same_payload o o';
  due_sub : ∀ l, is_Some (heap s0 !! l) → is_Some (heap s !! l);
  due_count : numObjects (vm s0) ≤ numObjects (vm s)
}.

(** ** The states the machine can be in *)

(** One step of the program that uses the VM: it calls one of the operations,
    or assigns an allocated object to a field of a pair (as the test
    scenarios do to build cycles). *)
Inductive step : State → State → Prop :=
| step_pushInt s v s' : pushInt s v = Ok s' → step s s'
| step_pushPair s s' l : pushPair s = Ok (s', l) → step s s'
| step_pop s s' p : pop s = Ok (s', p) → step s s'
| step_push s l s' : is_Some (heap s !! l) → push s (Some l) = Ok s' → step s s'
| step_gc s s' : gc s = Ok s' → step s s'
| step_set_head s a b :
    type <$> heap s !! a = Some OBJ_PAIR → is_Some (heap s !! b) →
    step s (store (set_head (Some b)) a s)
| step_set_tail s a b :
    type <$> heap s !! a = Some OBJ_PAIR → is_Some (heap s !! b) →
    step s (store (set_tail (Some b)) a s).

Definition reachable (s : State) : Prop := rtc step newVM s.

(** ** Fatal outcomes *)

Definition no_fatal {A} (r : result A) : Prop := ∀ sf, r ≠ Fatal sf.

(** ** Vocabulary of the further properties *)

(** Every allocated object can be reached from the stack. *)
Definition all_live (s : State) : Prop := ∀ l, is_Some (heap s !! l) → live s l.

(** A call that allocates and never pops more than it needs: [pushInt] or
    [pushPair]. *)
Definition is_alloc_op (o : Op) : bool :=
  match o with
  | OpPushInt _ | OpPushPair => true
  | _ => false
  end.

(** A call other than a forced collection. *)
Definition is_mutator_op (o : Op) : bool :=
  match o with
  | OpGc => false
  | _ => true
  end.

(** Every object of [h] is still allocated in [h']. *)
Definition keeps_objects (h h' : Heap) : Prop := ∀ l, is_Some (h !! l) → is_Some (h' !! l).

(** The state at the end of the third scenario of [main.c]. *)
Definition nested_state : State := unwrap newVM (run nested_ops newVM).

(** The state one allocation after a collection that found nothing: one
    object, threshold 0. *)
Definition above_state : State := unwrap newVM (pushInt popped_collected 7).

(** * Properties

    ** Shapes, marks and edges *)

Lemma same_shape_refl h : same_shape h h.
Proof. done. Qed.

Lemma same_shape_trans h1 h2 h3 :
  same_shape h1 h2 → same_shape h2 h3 → same_shape h1 h3.
Proof. intros H1 H2 l. by rewrite H1. Qed.

Lemma same_shape_sym h1 h2 : same_shape h1 h2 → same_shape h2 h1.
Proof. intros H l. by rewrite H. Qed.

Lemma same_shape_lookup h h' l o :
  same_shape h h' → h !! l = Some o →
  ∃ o', h' !! l = Some o' ∧ next o' = next o ∧ type o' = type o ∧
        value o' = value o ∧ head o' = head o ∧ tail o' = tail o.
Proof.
  intros H Hl. specialize (H l). rewrite Hl in H.
  destruct (h' !! l) as [o'|] eqn:E; simpl in H; [|done].
  exists o'. destruct o, o'. unfold set_marked in H. simpl in *.
  by simplify_eq.
Qed.

Lemma same_shape_is_Some h h' l :
  same_shape h h' → is_Some (h !! l) → is_Some (h' !! l).
Proof.
  intros H [o Ho]. destruct (same_shape_lookup _ _ _ _ H Ho) as (o' & -> & _). eauto.
Qed.

Lemma same_shape_set_marked h l o b :
  h !! l = Some o → same_shape h (<[l := set_marked b o]> h).
Proof.
  intros Hl x. destruct (decide (l = x)) as [->|Hne].
  - rewrite lookup_insert_eq, Hl. simpl. by destruct o.
  - by rewrite lookup_insert_ne.
Qed.

Lemma same_shape_edge h h' a b : same_shape h h' → edge h a b → edge h' a b.
Proof.
  intros H (o & Ho & Hty & Hc).
  destruct (same_shape_lookup _ _ _ _ H Ho) as (o' & Ho' & _ & Hty' & _ & Hh & Ht).
  exists o'. rewrite Hty', Hh, Ht. done.
Qed.

Lemma same_shape_reach h h' a b : same_shape h h' → reach h a b → reach h' a b.
Proof.
  intros H. induction 1 as [|x y z Hxy _ IH]; [constructor|].
  econstructor; [|exact IH]. by eapply same_shape_edge.
Qed.

Lemma same_shape_wf h h' : same_shape h h' → heap_wf h → heap_wf h'.
Proof.
  intros H Hwf l o' Ho' Hty.
  destruct (same_shape_lookup _ _ _ _ (same_shape_sym _ _ H) Ho')
    as (o & Ho & _ & Hty' & _ & Hh & Ht).
  destruct (Hwf l o Ho) as [(a & Ha & Hsa) (b & Hb & Hsb)]; [congruence|].
  split; [exists a | exists b]; (split; [congruence | by eapply same_shape_is_Some]).
Qed.

Lemma marked_or_unmarked h l : is_Some (h !! l) → marked_in h l ∨ unmarked_in h l.
Proof.
  intros [o Ho]. unfold marked_in, unmarked_in. rewrite Ho. simpl.
  destruct (marked o); auto.
Qed.

Lemma marked_not_unmarked h l : marked_in h l → unmarked_in h l → False.
Proof. unfold marked_in, unmarked_in. congruence. Qed.

Lemma elem_of_unmarked h l : l ∈ unmarked h ↔ unmarked_in h l.
Proof.
  unfold unmarked, unmarked_in. rewrite elem_of_dom. split.
  - intros [o Ho]. apply map_lookup_filter_Some in Ho as [Ho Hm].
    rewrite Ho. simpl in *. by rewrite Hm.
  - destruct (h !! l) as [o|] eqn:E; [|done]. simpl. intros [= Hm].
    exists o. by apply map_lookup_filter_Some.
Qed.

Lemma unmarked_size h : (size (unmarked h) ≤ size h)%nat.
Proof.
  rewrite <- (size_dom (D := gset loc) h). apply subseteq_size.
  intros l Hl. apply elem_of_unmarked in Hl. apply elem_of_dom.
  unfold unmarked_in in Hl. destruct (h !! l); [eauto | done].
Qed.

Lemma unmarked_mono h h' :
  same_shape h h' → (∀ x, marked_in h x → marked_in h' x) →
  unmarked h' ⊆ unmarked h.
Proof.
  intros Hs Hm x Hx. apply elem_of_unmarked in Hx. apply elem_of_unmarked.
  assert (is_Some (h !! x)) as Hal.
  { apply (same_shape_is_Some h' h); [by apply same_shape_sym|].
    unfold unmarked_in in Hx. destruct (h' !! x); [eauto | done]. }
  destruct (marked_or_unmarked _ _ Hal) as [Hmk|]; [|done].
  destruct (marked_not_unmarked h' x); auto.
Qed.

Lemma marked_in_insert h l o x :
  marked_in (<[l := o]> h) x ↔ (x = l ∧ marked o = true) ∨ (x ≠ l ∧ marked_in h x).
Proof.
  unfold marked_in. destruct (decide (l = x)) as [->|Hne].
  - rewrite lookup_insert_eq. simpl. split.
    + intros [= ->]. auto.
    + intros [[_ ->]|[? _]]; done.
  - rewrite lookup_insert_ne by done. split; [auto|]. intros [[-> _]|[_ ?]]; done.
Qed.

Lemma unmarked_set_marked h l o :
  h !! l = Some o → marked o = false →
  (size (unmarked (<[l := set_marked true o]> h)) < size (unmarked h))%nat.
Proof.
  intros Hl Hm. apply subset_size. split.
  - apply unmarked_mono; [by apply same_shape_set_marked|].
    intros x Hx. apply marked_in_insert.
    destruct (decide (x = l)); [left | right]; done.
  - intros Hsub. assert (l ∈ unmarked h) as Hin.
    { apply elem_of_unmarked. unfold unmarked_in. by rewrite Hl; simpl; rewrite Hm. }
    apply Hsub, elem_of_unmarked in Hin. unfold unmarked_in in Hin.
    rewrite lookup_insert_eq in Hin. done.
Qed.

Lemma upath_weaken h h' a x :
  same_shape h h' → (∀ y, marked_in h y → marked_in h' y) →
  upath h' a x → upath h a x.
Proof.
  intros Hs Hm. assert (∀ y, unmarked_in h' y → unmarked_in h y) as Hu.
  { intros y Hy. apply elem_of_unmarked. eapply unmarked_mono; [done..|].
    by apply elem_of_unmarked. }
  induction 1 as [l Hl | l c x Hl He _ IH].
  - apply upath_here; auto.
  - eapply upath_step; [auto | | exact IH].
    eapply same_shape_edge; [|exact He]. by apply same_shape_sym.
Qed.

Lemma upath_reach h a x : upath h a x → reach h a x.
Proof.
  induction 1 as [|l c x _ He _ IH]; [constructor|]. by econstructor.
Qed.

(** ** [mark] *)

Lemma mark_fuel_spec n : ∀ h l,
  heap_wf h → is_Some (h !! l) → (size (unmarked h) < n)%nat →
  ∃ h', mark_fuel n h (Some l) = Ok h' ∧ mark_post h l h'.
Proof.
  induction n as [|n IH]; intros h l Hwf [o Ho] Hn; [lia|].
  simpl. rewrite Ho. destruct (marked o) eqn:Hm.
  { exists h. split; [done|]. repeat split; auto using same_shape_refl.
    unfold marked_in. by rewrite Ho; simpl; rewrite Hm. }
  set (h1 := <[l := set_marked true o]> h).
  assert (same_shape h h1) as Hs1 by by apply same_shape_set_marked.
  assert (∀ x, marked_in h x → marked_in h1 x) as Hm1.
  { intros x Hx. apply marked_in_insert.
    destruct (decide (x = l)); [left | right]; done. }
  assert (marked_in h1 l) as Hl1.
  { apply marked_in_insert. by left. }
  assert (unmarked_in h l) as Hul.
  { unfold unmarked_in. by rewrite Ho; simpl; rewrite Hm. }
  assert (∀ x, marked_in h1 x → marked_in h x ∨ upath h l x) as Hp1.
  { intros x Hx. apply marked_in_insert in Hx as [[-> _]|[_ ?]]; [right|by left].
    by apply upath_here. }
  assert (size (unmarked h1) < n)%nat as Hn1.
  { pose proof (unmarked_set_marked h l o Ho Hm). fold h1 in H. lia. }
  destruct (type o) eqn:Hty.
  { exists h1. split; [done|]. repeat split; auto.
    intros G HG a b Ha HGa He. apply Hm1.
    apply marked_in_insert in Ha as [[-> _]|[_ Ha]].
    - destruct He as (o' & Ho' & Hty' & _). unfold h1 in Ho'.
      rewrite lookup_insert_eq in Ho'. simplify_eq. simpl in Hty'. congruence.
    - eapply HG; [done..|]. eapply same_shape_edge; [|exact He].
      by apply same_shape_sym. }
  destruct (Hwf l o Ho Hty) as [(a & Ha & Hsa) (b & Hb & Hsb)].
  pose proof (same_shape_wf _ _ Hs1 Hwf) as Hwf1.
  destruct (IH h1 a Hwf1 (same_shape_is_Some _ _ _ Hs1 Hsa) Hn1)
    as (h2 & E2 & Hs2 & Hm2 & Ha2 & Hp2 & Hc2).
  assert (size (unmarked h2) < n)%nat as Hn2.
  { pose proof (subseteq_size _ _ (unmarked_mono _ _ Hs2 Hm2)). lia. }
  pose proof (same_shape_trans _ _ _ Hs1 Hs2) as Hs12.
  destruct (IH h2 b (same_shape_wf _ _ Hs2 Hwf1) (same_shape_is_Some _ _ _ Hs12 Hsb) Hn2)
    as (h3 & E3 & Hs3 & Hm3 & Hb3 & Hp3 & Hc3).
  exists h3. rewrite Ha, E2. simpl. rewrite Hb, E3. split; [done|].
  pose proof (same_shape_trans _ _ _ Hs12 Hs3) as Hs13.
  assert (edge h l a) as Hea by (exists o; auto).
  assert (edge h l b) as Heb by (exists o; auto).
  repeat split; auto.
  - intros x Hx. destruct (Hp3 x Hx) as [Hx2|Hx2].
    + destruct (Hp2 x Hx2) as [Hx1|Hx1]; [auto|].
      right. eapply upath_step; [done | exact Hea |]. apply (upath_weaken h h1); auto.
    + right. eapply upath_step; [done | exact Heb |].
      apply (upath_weaken h h2); auto.
  - intros G HG. assert (closed_except (λ x, G x ∨ x = l) h1) as HG1.
    { intros x y Hx HGx He. apply Hm1.
      apply marked_in_insert in Hx as [[-> _]|[_ Hx]]; [tauto|].
      eapply HG; [done | tauto |]. eapply same_shape_edge; [|exact He].
      by apply same_shape_sym. }
    apply Hc2, Hc3 in HG1. intros x y Hx HGx He.
    destruct (decide (x = l)) as [->|Hne]; [|eapply HG1; [done | tauto | done]].
    destruct He as (o' & Ho' & _ & Hc).
    destruct (same_shape_lookup _ _ _ _ Hs13 Ho) as (o'' & Ho'' & _ & _ & _ & Hh & Ht).
    simplify_eq. rewrite Hh, Ht, Ha, Hb in Hc.
    destruct Hc as [[= <-]|[= <-]]; auto.
Qed.

Lemma mark_fuel_shape n : ∀ h p h',
  mark_fuel n h p = Ok h' →
  same_shape h h' ∧ (∀ x, marked_in h x → marked_in h' x).
Proof.
  induction n as [|n IH]; intros h p h' E; [done|].
  simpl in E. destruct p as [l|]; [|done].
  destruct (h !! l) as [o|] eqn:Ho; [|done].
  destruct (marked o) eqn:Hm; [by simplify_eq|].
  set (h1 := <[l := set_marked true o]> h) in *.
  assert (same_shape h h1 ∧ (∀ x, marked_in h x → marked_in h1 x)) as [Hs1 Hm1].
  { split; [by apply same_shape_set_marked|]. intros x Hx. apply marked_in_insert.
    destruct (decide (x = l)); [left | right]; done. }
  destruct (type o); [by simplify_eq|].
  destruct (mark_fuel n h1 (head o)) as [h2| | |] eqn:E2; try done. simpl in E.
  destruct (IH _ _ _ E2) as [Hs2 Hm2], (IH _ _ _ E) as [Hs3 Hm3].
  split; [eauto using same_shape_trans | auto].
Qed.

(** The recursion budget of [mark] is never exhausted, whatever the heap. *)
Lemma mark_fuel_no_timeout n : ∀ h p,
  (size (unmarked h) < n)%nat → mark_fuel n h p ≠ Timeout.
Proof.
  induction n as [|n IH]; intros h p Hn; [lia|].
  simpl. destruct p as [l|]; [|done].
  destruct (h !! l) as [o|] eqn:Ho; [|done].
  destruct (marked o) eqn:Hm; [done|].
  pose proof (unmarked_set_marked h l o Ho Hm) as Hlt.
  set (h1 := <[l := set_marked true o]> h) in *.
  destruct (type o); [done|].
  destruct (mark_fuel n h1 (head o)) as [h2| | |] eqn:E2; simpl; try done.
  - apply IH. destruct (mark_fuel_shape _ _ _ _ E2) as [Hs2 Hm2].
    pose proof (subseteq_size _ _ (unmarked_mono _ _ Hs2 Hm2)). lia.
  - exfalso. revert E2. apply IH. lia.
Qed.

Lemma mark_fuel_mono n : ∀ m h p h',
  mark_fuel n h p = Ok h' → (n ≤ m)%nat → mark_fuel m h p = Ok h'.
Proof.
  induction n as [|n IH]; intros m h p h' E Hle; [done|].
  destruct m as [|m]; [lia|]. simpl in *.
  destruct p as [l|]; [|done]. destruct (h !! l) as [o|]; [|done].
  destruct (marked o); [done|]. destruct (type o); [done|].
  destruct (mark_fuel n _ (head o)) as [h2| | |] eqn:E2; try done.
  rewrite (IH m _ _ _ E2) by lia. simpl in *. apply IH; [done | lia].
Qed.

Lemma mark_spec h l :
  heap_wf h → is_Some (h !! l) →
  ∃ h', mark h (Some l) = Ok h' ∧ mark_post h l h'.
Proof.
  intros Hwf Hl. apply mark_fuel_spec; [done..|].
  pose proof (unmarked_size h). lia.
Qed.

Lemma mark_marked h l : marked_in h l → mark h (Some l) = Ok h.
Proof.
  unfold marked_in, mark. simpl. destruct (h !! l) as [o|]; [|done].
  simpl. by intros [= ->].
Qed.

Lemma closed_reach h a x : closed h → marked_in h a → reach h a x → marked_in h x.
Proof.
  intros Hc Ha. induction 1 as [|x y z He _ IH]; [done|].
  apply IH. eapply Hc; [done | tauto | done].
Qed.

Lemma mark_post_upath h l h' x :
  mark_post h l h' → upath h l x → marked_in h' x.
Proof.
  intros (Hs & Hm & Hl & _ & Hc) Hp.
  assert (closed_except (marked_in h) h') as HG by (apply Hc; intros a b Ha Hna; done).
  clear Hc. induction Hp as [|l c x Hul He _ IH]; [done|].
  apply IH. eapply HG; [done | | by eapply same_shape_edge].
  intros Hml. by eapply marked_not_unmarked.
Qed.

Lemma mark_post_closed h l h' :
  mark_post h l h' → closed h →
  closed h' ∧ ∀ x, marked_in h' x ↔ marked_in h x ∨ reach h l x.
Proof.
  intros (Hs & Hm & Hl & Hp & Hc) Hcl. pose proof (Hc _ Hcl) as Hcl'.
  split; [done|]. intros x. split.
  - intros Hx. destruct (Hp x Hx); auto using upath_reach.
  - intros [Hx|Hx]; [auto|]. eapply closed_reach; [done..|].
    by eapply same_shape_reach.
Qed.

Lemma child_ok_spec h p : child_ok h p = true → ∃ a, p = Some a ∧ is_Some (h !! a).
Proof.
  destruct p as [a|]; [|done]. simpl. intros H%bool_decide_eq_true. eauto.
Qed.

Lemma heap_wfb_spec h : heap_wfb h = true → heap_wf h.
Proof.
  unfold heap_wfb. rewrite forallb_forall. intros H l o Ho Hty.
  specialize (H (l, o)). unfold object_ok in H. simpl in H. rewrite Hty in H.
  apply andb_prop in H as [Hh Ht];
    [|by apply list_elem_of_In, elem_of_map_to_list].
  split; by apply child_ok_spec.
Qed.

(** ** The registry list *)

Lemma filter_ext_in {A} (P Q : A → Prop) `{∀ x, Decision (P x)} `{∀ x, Decision (Q x)}
    (l : list A) :
  (∀ x, x ∈ l → (P x ↔ Q x)) → filter P l = filter Q l.
Proof.
  induction l as [|a l IH]; intros Hpq; [done|].
  rewrite !filter_cons, IH by (intros; apply Hpq; by right).
  destruct (decide (P a)) as [Hp|Hp], (decide (Q a)) as [Hq|Hq]; try done;
    apply Hpq in Hp || apply Hpq in Hq; try done; by left.
Qed.

Lemma reg_list_frame h h' p L :
  (∀ l, l ∈ L → next <$> h' !! l = next <$> h !! l) →
  reg_list h p L → reg_list h' p L.
Proof.
  revert p. induction L as [|l L IH]; intros p Hf; [done|].
  simpl. intros (-> & o & Ho & Hr). split; [done|].
  pose proof (Hf l ltac:(by left)) as Hl. rewrite Ho in Hl.
  destruct (h' !! l) as [o'|]; [|done]. simpl in Hl. exists o'. split; [done|].
  apply IH; [intros; apply Hf; by right | congruence].
Qed.

Lemma reg_list_det h p L1 : ∀ L2 , reg_list h p L1 → reg_list h p L2 → L1 = L2.
Proof.
  revert p. induction L1 as [|l L1 IH]; intros p [|l2 L2]; simpl; try congruence.
  - intros ? [? _]. congruence.
  - intros [? _] ?. congruence.
  - intros (-> & o & Ho & Hr) ([= <-] & o2 & Ho2 & Hr2). simplify_eq.
    f_equal. eauto.
Qed.

Lemma reg_list_suffix h p L1 : ∀ l L2,
  reg_list h p (L1 ++ l :: L2) → reg_list h (Some l) (l :: L2).
Proof.
  revert p. induction L1 as [|a L1 IH]; simpl; intros p l L2.
  - intros (_ & o & Ho & Hr). simpl. eauto.
  - intros (_ & o & Ho & Hr). by eapply IH.
Qed.

Lemma reg_list_NoDup h p L : reg_list h p L → NoDup L.
Proof.
  revert p. induction L as [|l L IH]; intros p; [constructor|].
  intros Hr. pose proof Hr as (-> & o & Ho & Hr'). apply NoDup_cons. split; [|eauto].
  intros (L1 & L2 & ->)%list_elem_of_split.
  pose proof (reg_list_suffix _ _ _ _ _ Hr') as Hs.
  pose proof (reg_list_det _ _ _ _ Hr Hs) as E.
  apply (f_equal length) in E. simpl in E. rewrite length_app in E. simpl in E. lia.
Qed.

Lemma reg_list_alloc h p L l : reg_list h p L → l ∈ L → is_Some (h !! l).
Proof.
  revert p. induction L as [|a L IH]; intros p Hr Hin; [by apply elem_of_nil in Hin|].
  destruct Hr as (-> & o & Ho & Hr). apply elem_of_cons in Hin as [->|Hin]; eauto.
Qed.

Lemma reg_list_length h p L : reg_list h p L → (length L ≤ size h)%nat.
Proof.
  intros Hr. rewrite <- (size_dom (D := gset loc) h).
  rewrite <- (size_list_to_set (C := gset loc) L) by by eapply reg_list_NoDup.
  apply subseteq_size. intros l Hl%elem_of_list_to_set.
  apply elem_of_dom. by eapply reg_list_alloc.
Qed.

(** ** [sweep] *)

Lemma int_ok_true z : INT_MIN ≤ z ≤ INT_MAX → int_ok z = true.
Proof. unfold int_ok. intros. apply andb_true_intro. split; lia. Qed.

Lemma arith_ok z : INT_MIN ≤ z ≤ INT_MAX → arith z = Ok z.
Proof. intros H. unfold arith. by rewrite int_ok_true. Qed.

Lemma sweep_loop_null n s object :
  read_link s object = Ok None → sweep_loop (S n) s object = Ok s.
Proof. intros E. simpl. by rewrite E. Qed.

Lemma sweep_loop_keep n s object l o :
  read_link s object = Ok (Some l) → heap s !! l = Some o → marked o = true →
  sweep_loop (S n) s object = sweep_loop n (sweep_keep s l o) (LNext l).
Proof. intros E Ho Hm. simpl. rewrite E. simpl. by rewrite Ho, Hm. Qed.

Lemma sweep_loop_free n s object l o :
  read_link s object = Ok (Some l) → heap s !! l = Some o → marked o = false →
  INT_MIN ≤ numObjects (vm s) - 1 ≤ INT_MAX →
  sweep_loop (S n) s object = sweep_loop n (sweep_free s object l o) object.
Proof.
  intros E Ho Hm Hr. simpl. rewrite E. simpl. rewrite Ho, Hm. simpl.
  assert (numObjects (vm (write_link s object (next o))) = numObjects (vm s)) as ->
    by by destruct object.
  by rewrite arith_ok.
Qed.

Lemma set_next_id o : set_next (next o) o = o.
Proof. by destruct o. Qed.

Lemma sweep_loop_spec L : ∀ s object p,
  read_link s object = Ok p →
  reg_list (heap s) p L →
  link_ok s object L →
  INT_MIN + Z.of_nat (length L) ≤ numObjects (vm s) ≤ INT_MAX →
  ∃ s', (∀ n, (length L < n)%nat → sweep_loop n s object = Ok s') ∧
        (∀ n, (n ≤ length L)%nat → sweep_loop n s object = Timeout) ∧
        sweep_post s object L s'.
Proof.
  induction L as [|l L IH]; intros s object p Hrd Hreg Hlk Hrange.
  { simpl in Hreg. subst p. exists s. split; [|split].
    - intros [|n] Hn; [simpl in Hn; lia|]. by apply sweep_loop_null.
    - intros n Hn. simpl in Hn. by replace n with 0%nat by lia.
    - unfold sweep_post. simpl. split_and!; try done.
      + eauto.
      + intros l Hl. by apply elem_of_nil in Hl.
      + intros l o Hl. by apply elem_of_nil in Hl.
      + intros p ->. destruct Hlk as [[o Ho] _]. exists o, o.
        by rewrite set_next_id.
      + lia. }
  pose proof (reg_list_NoDup _ _ _ Hreg) as [Hnin Hnd]%NoDup_cons.
  destruct Hreg as (-> & o & Ho & Hreg).
  assert (object ≠ LNext l) as Hol.
  { intros ->. destruct Hlk as [_ Hl]. apply Hl. by left. }
  destruct (marked o) eqn:Hm.
  - (* the object was reached: unmark it and advance *)
    set (s1 := sweep_keep s l o).
    assert (∀ x, x ≠ l → heap s1 !! x = heap s !! x) as Hfr
      by (intros x Hx; simpl; by rewrite lookup_insert_ne).
    assert (heap s1 !! l = Some (set_marked false o)) as Hl1
      by (simpl; by rewrite lookup_insert_eq).
    destruct (IH s1 (LNext l) (next o)) as (s' & Hok & Hto & Hpost).
    { simpl. by rewrite lookup_insert_eq. }
    { eapply reg_list_frame; [|exact Hreg]. intros x Hx. rewrite Hfr; [done|].
      intros ->. done. }
    { split; [by rewrite Hl1|done]. }
    { simpl in *. lia. }
    exists s'. split; [|split].
    { intros [|n] Hn; [lia|]. rewrite (sweep_loop_keep _ _ _ _ _ Hrd Ho Hm).
      apply Hok. simpl in Hn. lia. }
    { intros [|n] Hn; [done|]. rewrite (sweep_loop_keep _ _ _ _ _ Hrd Ho Hm).
      apply Hto. simpl in Hn. lia. }
    destruct Hpost as ((p' & Hrd' & Hreg') & Hun & Hmk & Hoth & Hcell & Hnum &
                       Hmax & Hstk & Hsz & Hout & Hfirst).
    assert (filter (marked_in (heap s1)) L = filter (marked_in (heap s)) L) as Hfil.
    { apply filter_ext_in. intros x Hx. unfold marked_in. rewrite Hfr; [done|].
      intros ->. done. }
    rewrite Hfil in *.
    assert (marked_in (heap s) l) as Hml
      by (unfold marked_in; by rewrite Ho; simpl; rewrite Hm).
    destruct (Hcell l eq_refl) as (o1 & o' & Ho1 & Ho' & Eo').
    rewrite Hl1 in Ho1. simplify_eq.
    unfold sweep_post. rewrite filter_cons_True by done.
    split_and!.
    + exists (Some l). split.
      * destruct object as [|p0]; simpl.
        -- rewrite Hfirst by done. exact Hrd.
        -- destruct Hlk as [_ Hp0]. apply not_elem_of_cons in Hp0 as [Hp0l Hp0].
           rewrite Hoth, Hfr; [exact Hrd|done..|by intros [= ->]].
      * simpl. split; [done|]. exists o'. split; [done|].
        simpl in Hrd'. rewrite Ho' in Hrd'. by simplify_eq.
    + intros x Hx Hux. apply elem_of_cons in Hx as [->|Hx].
      { by destruct (marked_not_unmarked (heap s) l). }
      apply Hun; [done|]. unfold unmarked_in. rewrite Hfr; [done|]. by intros ->.
    + intros x ox Hx Hox Hmx. apply elem_of_cons in Hx as [->|Hx].
      * simplify_eq. exists o'. split; [done|]. rewrite Eo'. by destruct o.
      * apply Hmk; [done| |done]. rewrite Hfr; [done|]. by intros ->.
    + intros x Hx Hne. apply not_elem_of_cons in Hx as [Hxl Hx].
      rewrite Hoth, Hfr; [done..|]. by intros [= ->].
    + intros p0 ->. destruct Hlk as [[o0 Ho0] Hp0].
      apply not_elem_of_cons in Hp0 as [Hp0l Hp0].
      exists o0, o0. rewrite Hoth, Hfr; [|done..|by intros [= ->]].
      by rewrite set_next_id.
    + rewrite Hnum. simpl. pose proof (length_filter (marked_in (heap s)) L). lia.
    + by rewrite Hmax.
    + by rewrite Hstk.
    + by rewrite Hsz.
    + by rewrite Hout.
    + intros Hne. destruct object; [done|]. by rewrite Hfirst.
  - (* the object was not reached: unlink it and free it *)
    set (s1 := sweep_free s object l o).
    assert (INT_MIN ≤ numObjects (vm s) - 1 ≤ INT_MAX) as Hr1
      by (simpl in Hrange; lia).
    assert (∀ x, x ≠ l → object ≠ LNext x → heap s1 !! x = heap s !! x) as Hfr.
    { intros x Hx Hox. unfold s1, sweep_free. simpl. rewrite lookup_delete_ne by done.
      destruct object as [|p0]; simpl; [done|]. rewrite lookup_alter_ne; [done|].
      by intros ->. }
    assert (heap s1 !! l = None) as Hl1.
    { unfold s1, sweep_free. simpl. apply lookup_delete_eq. }
    assert (∀ x, x ∈ L → heap s1 !! x = heap s !! x) as HfrL.
    { intros x Hx. apply Hfr; [by intros ->|]. intros ->. destruct Hlk as [_ Hp0].
      apply Hp0. by right. }
    destruct (IH s1 object (next o)) as (s' & Hok & Hto & Hpost).
    { unfold s1, sweep_free. destruct object as [|p0]; simpl; [done|].
      destruct Hlk as [[o0 Ho0] Hp0]. rewrite lookup_delete_ne.
      - rewrite lookup_alter_eq, Ho0. done.
      - intros ->. apply Hp0. by left. }
    { eapply reg_list_frame; [|exact Hreg]. intros x Hx. by rewrite HfrL. }
    { destruct object as [|p0]; [done|]. destruct Hlk as [[o0 Ho0] Hp0].
      apply not_elem_of_cons in Hp0 as [Hp0l Hp0]. split; [|done].
      unfold s1, sweep_free. simpl. rewrite lookup_delete_ne by done.
      rewrite lookup_alter_eq, Ho0. eauto. }
    { assert (numObjects (vm s1) = numObjects (vm s) - 1) as ->
        by (unfold s1, sweep_free; by destruct object).
      simpl in Hrange. lia. }
    exists s'. split; [|split].
    { intros [|n] Hn; [lia|]. rewrite (sweep_loop_free _ _ _ _ _ Hrd Ho Hm Hr1).
      apply Hok. simpl in Hn. lia. }
    { intros [|n] Hn; [done|]. rewrite (sweep_loop_free _ _ _ _ _ Hrd Ho Hm Hr1).
      apply Hto. simpl in Hn. lia. }
    destruct Hpost as ((p' & Hrd' & Hreg') & Hun & Hmk & Hoth & Hcell & Hnum &
                       Hmax & Hstk & Hsz & Hout & Hfirst).
    assert (filter (marked_in (heap s1)) L = filter (marked_in (heap s)) L) as Hfil.
    { apply filter_ext_in. intros x Hx. unfold marked_in. by rewrite HfrL. }
    rewrite Hfil in *.
    assert (¬ marked_in (heap s) l) as Hml
      by (unfold marked_in; rewrite Ho; simpl; rewrite Hm; done).
    unfold sweep_post. rewrite filter_cons_False by done.
    split_and!.
    + eauto.
    + intros x Hx Hux. apply elem_of_cons in Hx as [->|Hx].
      * by rewrite Hoth.
      * apply Hun; [done|]. unfold unmarked_in. by rewrite HfrL.
    + intros x ox Hx Hox Hmx. apply elem_of_cons in Hx as [->|Hx]; [congruence|].
      apply Hmk; [done| |done]. by rewrite HfrL.
    + intros x Hx Hne. apply not_elem_of_cons in Hx as [Hxl Hx].
      by rewrite Hoth, Hfr.
    + intros p0 ->. destruct Hlk as [[o0 Ho0] Hp0].
      apply not_elem_of_cons in Hp0 as [Hp0l Hp0].
      destruct (Hcell p0 eq_refl) as (o1 & o' & Ho1 & Ho' & Eo').
      exists o0, o'. split; [done|]. split; [done|].
      unfold s1, sweep_free in Ho1. simpl in Ho1.
      rewrite lookup_delete_ne, lookup_alter_eq, Ho0 in Ho1 by done.
      simpl in Ho1. simplify_eq. rewrite Eo'. by destruct o0.
    + rewrite Hnum.
      assert (numObjects (vm s1) = numObjects (vm s) - 1) as ->
        by (unfold s1, sweep_free; by destruct object).
      simpl. pose proof (length_filter (marked_in (heap s)) L). lia.
    + rewrite Hmax. unfold s1, sweep_free. by destruct object.
    + rewrite Hstk. unfold s1, sweep_free. by destruct object.
    + rewrite Hsz. unfold s1, sweep_free. by destruct object.
    + rewrite Hout. unfold s1, sweep_free. by destruct object.
    + intros Hne. rewrite Hfirst by done. unfold s1, sweep_free.
      by destruct object.
Qed.

Lemma length_filter_split {A} (P Q : A → Prop) `{∀ x, Decision (P x)} `{∀ x, Decision (Q x)}
    (l : list A) :
  (∀ x, x ∈ l → (Q x ↔ ¬ P x)) →
  length l = (length (filter P l) + length (filter Q l))%nat.
Proof.
  induction l as [|a l IH]; intros Hpq; [done|].
  rewrite !filter_cons. specialize (IH (λ x Hx, Hpq x (list_elem_of_further _ _ _ Hx))).
  pose proof (Hpq a ltac:(by left)) as Ha.
  destruct (decide (P a)), (decide (Q a)); simpl; try lia; tauto.
Qed.

Lemma reg_list_marked_split h p L :
  reg_list h p L →
  length L = (length (filter (marked_in h) L) + length (filter (unmarked_in h) L))%nat.
Proof.
  intros Hr. apply length_filter_split. intros x Hx.
  destruct (marked_or_unmarked h x) as [Hm|Hu]; [by eapply reg_list_alloc|..].
  - split; [intros Hu ?; by eapply marked_not_unmarked | intros []; done].
  - split; [intros _ Hm; by eapply marked_not_unmarked | done].
Qed.

Lemma sweep_spec s L :
  reg_list (heap s) (firstObject (vm s)) L →
  INT_MIN + Z.of_nat (length L) ≤ numObjects (vm s) ≤ INT_MAX →
  ∃ s', sweep s = Ok s' ∧
        (∀ n, sweep_loop n s LFirst = if decide (length L < n)%nat then Ok s' else Timeout) ∧
        sweep_post s LFirst L s'.
Proof.
  intros Hreg Hrange.
  destruct (sweep_loop_spec L s LFirst _ eq_refl Hreg I Hrange) as (s' & Hok & Hto & Hpost).
  exists s'. split_and!; [|..|done].
  - apply Hok. pose proof (reg_list_length _ _ _ Hreg). lia.
  - intros n. case_decide; [apply Hok | apply Hto]; lia.
Qed.

(** ** [markAll] *)

Lemma mark_roots_spec rs : ∀ h,
  heap_wf h → closed h → Forall (root_ok h) rs →
  ∃ h', mark_roots rs h = Ok h' ∧ same_shape h h' ∧ closed h' ∧
        ∀ x, marked_in h' x ↔ marked_in h x ∨ live_from rs h x.
Proof.
  induction rs as [|r rs IH]; intros h Hwf Hcl Hrs.
  { exists h. split_and!; auto using same_shape_refl. intros x. split; [auto|].
    intros [?|(r & Hr & _)]; [done|]. by apply elem_of_nil in Hr. }
  apply Forall_cons in Hrs as [(l & -> & Hl) Hrs].
  destruct (mark_spec h l Hwf Hl) as (h1 & E1 & Hpost).
  pose proof Hpost as (Hs1 & _).
  destruct (mark_post_closed _ _ _ Hpost Hcl) as [Hcl1 Hm1].
  destruct (IH h1) as (h2 & E2 & Hs2 & Hcl2 & Hm2).
  { by eapply same_shape_wf. }
  { done. }
  { eapply Forall_impl; [exact Hrs|]. intros r (a & -> & Ha). exists a.
    split; [done|]. by eapply same_shape_is_Some. }
  exists h2. simpl. rewrite E1. simpl. split_and!; eauto using same_shape_trans.
  intros x. rewrite Hm2, Hm1. split.
  - intros [[Hx|Hx]|(r & Hr & Hx)]; [by left|right..].
    + exists l. split; [by left|done].
    + exists r. split; [by right|]. eapply same_shape_reach; [|exact Hx].
      by apply same_shape_sym.
  - intros [Hx|(r & Hr & Hx)]; [by left; left|].
    apply elem_of_cons in Hr as [[= ->]|Hr]; [by left; right|].
    right. exists r. split; [done|]. by eapply same_shape_reach.
Qed.

Lemma unmarked_heap_closed h :
  (∀ l o, h !! l = Some o → marked o = false) → closed h.
Proof.
  intros Hu a b Ha. unfold marked_in in Ha. destruct (h !! a) as [o|] eqn:E; [|done].
  apply Hu in E. simpl in Ha. congruence.
Qed.

Lemma unmarked_heap_not_marked h x :
  (∀ l o, h !! l = Some o → marked o = false) → ¬ marked_in h x.
Proof.
  intros Hu Hx. unfold marked_in in Hx. destruct (h !! x) as [o|] eqn:E; [|done].
  apply Hu in E. simpl in Hx. congruence.
Qed.

Lemma markAll_spec s :
  vm_inv s →
  ∃ s1, markAll s = Ok s1 ∧ vm s1 = vm s ∧ out s1 = out s ∧
        same_shape (heap s) (heap s1) ∧ closed (heap s1) ∧
        ∀ x, marked_in (heap s1) x ↔ live s x.
Proof.
  intros [_ Hu Hwf Hr _ _ _].
  destruct (mark_roots_spec (roots s) (heap s) Hwf (unmarked_heap_closed _ Hu) Hr)
    as (h' & E & Hs & Hcl & Hm).
  exists (with_heap h' s). unfold markAll. fold (roots s). rewrite E.
  split_and!; try done. intros x. rewrite Hm. split; [|by right].
  intros [Hx|Hx]; [|done]. by destruct (unmarked_heap_not_marked (heap s) x).
Qed.

(** ** [gc] *)

Lemma same_shape_reg_list h h' p L :
  same_shape h h' → reg_list h p L → reg_list h' p L.
Proof.
  intros Hs. apply reg_list_frame. intros l _. specialize (Hs l).
  destruct (h !! l) as [o|], (h' !! l) as [o'|]; simpl in *; try done.
  destruct o, o'. unfold set_marked in Hs. simpl in *. by simplify_eq.
Qed.

Lemma marked_in_lookup h l : marked_in h l → ∃ o, h !! l = Some o ∧ marked o = true.
Proof.
  unfold marked_in. destruct (h !! l) as [o|]; [|done]. simpl. intros [= ?]. eauto.
Qed.

(** What is left after a sweep of a heap whose registry covers all objects:
    exactly the marked objects, unmarked again. *)
Lemma sweep_survivors s L s' :
  reg_list (heap s) (firstObject (vm s)) L →
  (∀ l, is_Some (heap s !! l) → l ∈ L) →
  sweep_post s LFirst L s' →
  (∀ l, is_Some (heap s' !! l) ↔ marked_in (heap s) l) ∧
  (∀ l o, heap s !! l = Some o → marked o = true →
     ∃ o', heap s' !! l = Some o' ∧ marked o' = false ∧ same_payload o o') ∧
  (∀ l o', heap s' !! l = Some o' → marked o' = false) ∧
  (∀ l, is_Some (heap s' !! l) → l ∈ filter (marked_in (heap s)) L).
Proof.
  intros Hreg Hall (_ & Hun & Hmk & Hoth & _).
  assert (∀ l, is_Some (heap s' !! l) → marked_in (heap s) l ∧ l ∈ L) as Hsurv.
  { intros l Hl. destruct (decide (l ∈ L)) as [Hin|Hnin].
    - split; [|done].
      destruct (marked_or_unmarked (heap s) l) as [|Hu]; [by eapply reg_list_alloc|done|].
      rewrite (Hun l Hin Hu) in Hl. by destruct Hl.
    - rewrite Hoth in Hl by done. by apply Hall in Hl. }
  assert (∀ l o, heap s !! l = Some o → marked o = true →
     ∃ o', heap s' !! l = Some o' ∧ marked o' = false ∧ same_payload o o') as Hkeep.
  { intros l o Ho Hm. apply Hmk; [|done..]. apply Hall. eauto. }
  split_and!; [|done|..].
  - intros l. split; [by intros []%Hsurv|].
    intros (o & Ho & Hm)%marked_in_lookup.
    destruct (Hkeep l o Ho Hm) as (o' & -> & _). eauto.
  - intros l o' Ho'. destruct (Hsurv l) as [Hml _]; [eauto|].
    apply marked_in_lookup in Hml as (o & Ho & Hm).
    destruct (Hkeep l o Ho Hm) as (o'' & Ho'' & ? & _). congruence.
  - intros l Hl. apply list_elem_of_filter. by apply Hsurv.
Qed.

Lemma roots_elem s r : Some r ∈ roots s → vm_inv s → is_Some (heap s !! r).
Proof.
  intros Hr Hinv. pose proof (inv_roots s Hinv) as Hf.
  rewrite Forall_forall in Hf. destruct (Hf _ Hr) as (l & [= <-] & Hl). done.
Qed.

Lemma gc_phases s :
  vm_inv s →
  ∃ s1 s2, markAll s = Ok s1 ∧ (∀ x, marked_in (heap s1) x ↔ live s x) ∧
           sweep s1 = Ok s2 ∧
           gc s = (let* n := arith (numObjects (vm s2) * 2) in Ok (set_maxObjects n s2)) ∧
           0 ≤ numObjects (vm s2) ∧
           gc_post s (set_maxObjects (numObjects (vm s2) * 2) s2).
Proof.
  intros Hinv.
  destruct (markAll_spec s Hinv) as (s1 & E1 & Hvm1 & Hout1 & Hs1 & Hcl1 & Hm1).
  pose proof Hinv as [(L & Hreg & Hall & Hnum) Hu Hwf Hr Hlen Hsz Hrange].
  assert (reg_list (heap s1) (firstObject (vm s1)) L) as Hreg1.
  { rewrite Hvm1. by eapply same_shape_reg_list. }
  assert (∀ l, is_Some (heap s1 !! l) → l ∈ L) as Hall1.
  { intros l Hl. apply Hall. eapply same_shape_is_Some; [|exact Hl].
    by apply same_shape_sym. }
  destruct (sweep_spec s1 L Hreg1) as (s2 & E2 & _ & Hpost).
  { rewrite Hvm1. unfold INT_MIN. lia. }
  destruct (sweep_survivors s1 L s2 Hreg1 Hall1 Hpost) as (Hsurv & Hkeep & Hclr & HinL).
  destruct Hpost as ((p' & Hrd' & Hreg') & _ & _ & _ & _ & Hnum2 & Hmax2 & Hstk2 &
                     Hsz2 & Hout2 & _).
  simpl in Hrd'. simplify_eq.
  set (L' := filter (marked_in (heap s1)) L) in *.
  assert (numObjects (vm s2) = Z.of_nat (length L')) as HnL'.
  { rewrite Hnum2, Hvm1, Hnum. pose proof (length_filter (marked_in (heap s1)) L).
    fold L' in H. lia. }
  assert (length L' ≤ length L)%nat as HleL by apply length_filter.
  exists s1, s2. split_and!; [done..| | |].
  { unfold gc. rewrite E1. simpl. by rewrite E2. }
  { lia. }
  assert (∀ l, is_Some (heap s2 !! l) ↔ live s l) as Hal2.
  { intros l. by rewrite Hsurv, Hm1. }
  split; simpl.
  - split; simpl.
    + exists L'. split_and!; done.
    + done.
    + intros l o2 Ho2 Hty.
      assert (marked_in (heap s1) l) as Hml by (apply Hsurv; eauto).
      pose proof Hml as (o1 & Ho1 & Hmk1)%marked_in_lookup.
      destruct (Hkeep l o1 Ho1 Hmk1) as (o2' & Ho2' & _ & Hty' & _ & Hh & Ht).
      simplify_eq. rewrite Hty' in Hty. rewrite Hh, Ht.
      destruct (same_shape_wf _ _ Hs1 Hwf l o1 Ho1 Hty) as [(a & Ha & Hsa) (b & Hb & Hsb)].
      split; [exists a | exists b]; (split; [done|]); apply Hsurv;
        (eapply Hcl1; [exact Hml | tauto | exists o1; auto]).
    + unfold roots. simpl. rewrite Hstk2, Hsz2, Hvm1. fold (roots s).
      rewrite Forall_forall in Hr |- *. intros r Hrin.
      destruct (Hr r Hrin) as (l & -> & Hl). exists l. split; [done|].
      apply Hal2. exists l. split; [done | constructor].
    + by rewrite Hstk2, Hvm1.
    + by rewrite Hsz2, Hvm1.
    + lia.
  - congruence.
  - congruence.
  - congruence.
  - done.
  - intros l o Ho Hlive. apply Hm1 in Hlive as (o1 & Ho1 & Hmk1)%marked_in_lookup.
    destruct (Hkeep l o1 Ho1 Hmk1) as (o2 & Ho2 & _ & Hp).
    exists o2. split; [done|].
    destruct (same_shape_lookup _ _ _ _ Hs1 Ho) as (o1' & Ho1' & _ & ? & ? & ? & ?).
    simplify_eq. destruct Hp as (? & ? & ? & ?). unfold same_payload. split_and!; congruence.
  - lia.
  - done.
Qed.

Lemma gc_spec s :
  vm_inv s → numObjects (vm s) * 2 ≤ INT_MAX →
  ∃ s', gc s = Ok s' ∧ gc_post s s'.
Proof.
  intros Hinv Hfit. destruct (gc_phases s Hinv) as (s1 & s2 & _ & _ & _ & E & Hpos & Hpost).
  eexists. split; [|exact Hpost]. rewrite E, arith_ok; [done|].
  pose proof (gc_count _ _ Hpost) as Hc. simpl in Hc. unfold INT_MIN. lia.
Qed.

Lemma arith_Ok z n : arith z = Ok n → n = z ∧ INT_MIN ≤ z ≤ INT_MAX.
Proof.
  unfold arith, int_ok. destruct (_ && _) eqn:E; [|done]. intros [= <-].
  apply andb_prop in E as [?%Z.leb_le ?%Z.leb_le]. done.
Qed.

Lemma gc_Ok s s' : vm_inv s → gc s = Ok s' → gc_post s s'.
Proof.
  intros Hinv E. destruct (gc_phases s Hinv) as (s1 & s2 & _ & _ & _ & E' & _ & Hpost).
  rewrite E' in E. destruct (arith _) as [n| | |] eqn:Ea; try done.
  apply arith_Ok in Ea as [-> _]. simpl in E. by simplify_eq.
Qed.

(** ** Allocation *)

Lemma malloc_fresh h : h !! malloc h = None.
Proof. apply (not_elem_of_dom (D := gset loc)). unfold malloc. apply is_fresh. Qed.

Lemma newObject_unfold s ty :
  newObject s ty =
  (let* s0 := collect_if_due s in
   let* n := arith (numObjects (vm s0) + 1) in
   Ok (allocated ty s0, malloc (heap s0))).
Proof.
  unfold newObject, collect_if_due. destruct (_ =? _); [|simpl].
  - destruct (gc _) as [s0| | |]; simpl; [|done..].
    destruct (arith _) as [n| | |] eqn:E; simpl; [|done..].
    apply arith_Ok in E as [-> _]. done.
  - destruct (arith _) as [n| | |] eqn:E; simpl; [|done..].
    apply arith_Ok in E as [-> _]. done.
Qed.

Lemma newObject_Ok s ty s1 l :
  newObject s ty = Ok (s1, l) →
  ∃ s0, collect_if_due s = Ok s0 ∧ INT_MIN ≤ numObjects (vm s0) + 1 ≤ INT_MAX ∧
        s1 = allocated ty s0 ∧ l = malloc (heap s0).
Proof.
  rewrite newObject_unfold. destruct (collect_if_due s) as [s0| | |]; simpl; [|done..].
  destruct (arith _) as [n| | |] eqn:E; simpl; [|done..].
  apply arith_Ok in E as [-> ?]. intros [= <- <-]. eauto.
Qed.

Lemma newObject_eq s ty s0 :
  collect_if_due s = Ok s0 → INT_MIN ≤ numObjects (vm s0) + 1 ≤ INT_MAX →
  newObject s ty = Ok (allocated ty s0, malloc (heap s0)).
Proof. intros E Hr. rewrite newObject_unfold, E. simpl. by rewrite arith_ok. Qed.

Lemma pushInt_eq s v s0 :
  collect_if_due s = Ok s0 → INT_MIN ≤ numObjects (vm s0) + 1 ≤ INT_MAX →
  (stackSize (vm s0) < STACK_MAX)%nat →
  pushInt s v = Ok (pushed_int v s0).
Proof.
  intros E Hr Hsz. unfold pushInt. rewrite (newObject_eq _ _ _ E Hr). simpl.
  unfold push, assert. simpl. rewrite bool_decide_eq_true_2 by done. simpl.
  unfold pushed_int, store, with_vm, with_heap. simpl. by rewrite alter_insert_eq.
Qed.

Lemma pushInt_overflow s v s0 :
  collect_if_due s = Ok s0 → INT_MIN ≤ numObjects (vm s0) + 1 ≤ INT_MAX →
  ¬ (stackSize (vm s0) < STACK_MAX)%nat →
  pushInt s v = Fatal (printf "Stack overflow!"
                         (store (set_value v) (malloc (heap s0)) (allocated OBJ_INT s0))).
Proof.
  intros E Hr Hsz. unfold pushInt. rewrite (newObject_eq _ _ _ E Hr). simpl.
  unfold push, assert. simpl. by rewrite bool_decide_eq_false_2.
Qed.

Lemma pushInt_Ok s v s' :
  pushInt s v = Ok s' →
  ∃ s0, collect_if_due s = Ok s0 ∧ INT_MIN ≤ numObjects (vm s0) + 1 ≤ INT_MAX ∧
        (stackSize (vm s0) < STACK_MAX)%nat ∧ s' = pushed_int v s0.
Proof.
  intros Hp. pose proof Hp as Hp0. unfold pushInt in Hp.
  destruct (newObject s OBJ_INT) as [[s1 l]| | |] eqn:E; simpl in Hp; [|done..].
  apply newObject_Ok in E as (s0 & E & Hr & -> & ->). exists s0.
  destruct (decide (stackSize (vm s0) < STACK_MAX)%nat) as [Hsz|Hsz].
  - rewrite (pushInt_eq s v s0 E Hr Hsz) in Hp0. by simplify_eq.
  - by rewrite (pushInt_overflow s v s0 E Hr Hsz) in Hp0.
Qed.

Lemma pushPair_Ok s s' l :
  pushPair s = Ok (s', l) →
  ∃ s0 hd tl, collect_if_due s = Ok s0 ∧ INT_MIN ≤ numObjects (vm s0) + 1 ≤ INT_MAX ∧
     (2 ≤ stackSize (vm s0))%nat ∧ (stackSize (vm s0) - 2 < STACK_MAX)%nat ∧
     stack (vm s0) !! (stackSize (vm s0) - 1)%nat = Some tl ∧
     stack (vm s0) !! (stackSize (vm s0) - 2)%nat = Some hd ∧
     l = malloc (heap s0) ∧ s' = pushed_pair hd tl s0.
Proof.
  unfold pushPair.
  destruct (newObject s OBJ_PAIR) as [[s1 l1]| | |] eqn:E; simpl; [|done..].
  apply newObject_Ok in E as (s0 & E & Hr & -> & ->).
  unfold pop at 1, assert. simpl. case_bool_decide as H1; simpl; [|done].
  destruct (stack (vm s0) !! pred (stackSize (vm s0))) as [tl|] eqn:Etl; simpl; [|done].
  unfold pop, assert. simpl. case_bool_decide as H2; simpl; [|done].
  destruct (stack (vm s0) !! pred (pred (stackSize (vm s0)))) as [hd|] eqn:Ehd; simpl; [|done].
  unfold push, assert. simpl. case_bool_decide as H3; simpl; [|done].
  intros [= <- <-]. exists s0, hd, tl.
  replace (stackSize (vm s0) - 1)%nat with (pred (stackSize (vm s0))) by lia.
  replace (stackSize (vm s0) - 2)%nat with (pred (pred (stackSize (vm s0)))) by lia.
  split_and!; try done; try lia.
  unfold pushed_pair, store, with_vm, with_heap. simpl.
  rewrite !alter_insert_eq. simpl.
  replace (stackSize (vm s0) - 1)%nat with (S (pred (pred (stackSize (vm s0))))) by lia.
  replace (stackSize (vm s0) - 2)%nat with (pred (pred (stackSize (vm s0)))) by lia.
  done.
Qed.

Lemma pushPair_eq s s0 hd tl :
  collect_if_due s = Ok s0 → INT_MIN ≤ numObjects (vm s0) + 1 ≤ INT_MAX →
  (2 ≤ stackSize (vm s0))%nat → (stackSize (vm s0) - 2 < STACK_MAX)%nat →
  stack (vm s0) !! (stackSize (vm s0) - 1)%nat = Some tl →
  stack (vm s0) !! (stackSize (vm s0) - 2)%nat = Some hd →
  pushPair s = Ok (pushed_pair hd tl s0, malloc (heap s0)).
Proof.
  intros E Hr Hsz Hmax Htl Hhd. unfold pushPair. rewrite (newObject_eq _ _ _ E Hr). simpl.
  replace (stackSize (vm s0) - 1)%nat with (pred (stackSize (vm s0))) in Htl by lia.
  replace (stackSize (vm s0) - 2)%nat with (pred (pred (stackSize (vm s0)))) in * by lia.
  unfold pop at 1, assert. simpl. rewrite bool_decide_eq_true_2 by lia. simpl.
  rewrite Htl. simpl.
  unfold pop, assert. simpl. rewrite bool_decide_eq_true_2 by lia. simpl.
  rewrite Hhd. simpl.
  unfold push, assert. simpl. rewrite bool_decide_eq_true_2 by lia. simpl.
  unfold pushed_pair, store, with_vm, with_heap. simpl.
  rewrite !alter_insert_eq. simpl.
  replace (stackSize (vm s0) - 1)%nat with (S (pred (pred (stackSize (vm s0))))) by lia.
  replace (stackSize (vm s0) - 2)%nat with (pred (pred (stackSize (vm s0)))) by lia.
  done.
Qed.

(** With an empty stack the first [pop] ends the process; with one entry the
    second [pop] does.  The pair has been allocated by then. *)
Lemma pushPair_underflow0 s s0 :
  collect_if_due s = Ok s0 → INT_MIN ≤ numObjects (vm s0) + 1 ≤ INT_MAX →
  stackSize (vm s0) = 0%nat →
  pushPair s = Fatal (printf "Stack underflow!" (allocated OBJ_PAIR s0)).
Proof.
  intros E Hr Hsz. unfold pushPair. rewrite (newObject_eq _ _ _ E Hr). simpl.
  unfold pop, assert. simpl. rewrite Hsz. done.
Qed.

Lemma pushPair_underflow1 s s0 tl :
  collect_if_due s = Ok s0 → INT_MIN ≤ numObjects (vm s0) + 1 ≤ INT_MAX →
  stackSize (vm s0) = 1%nat → stack (vm s0) !! 0%nat = Some tl →
  pushPair s =
  Fatal (printf "Stack underflow!"
           (store (set_tail tl) (malloc (heap s0))
              (set_stackSize 0 (allocated OBJ_PAIR s0)))).
Proof.
  intros E Hr Hsz Htl. unfold pushPair. rewrite (newObject_eq _ _ _ E Hr). simpl.
  unfold pop at 1, assert. simpl. rewrite Hsz. simpl. rewrite Htl. simpl.
  unfold pop, assert. simpl. done.
Qed.

(** ** Preservation of the invariant *)

Lemma vm_inv_printf m s : vm_inv s → vm_inv (printf m s).
Proof. intros []. by split. Qed.

Lemma reach_alloc h a x : heap_wf h → is_Some (h !! a) → reach h a x → is_Some (h !! x).
Proof.
  intros Hwf Ha. induction 1 as [|x y z (o & Ho & Hty & Hc) _ IH]; [done|].
  apply IH. destruct (Hwf x o Ho Hty) as [(a & Ha' & Hsa) (b & Hb' & Hsb)].
  destruct Hc; by simplify_eq.
Qed.

Lemma live_alloc s x : vm_inv s → live s x → is_Some (heap s !! x).
Proof.
  intros Hinv (r & Hr & Hx). eapply reach_alloc; [by apply inv_wf | | exact Hx].
  by eapply roots_elem.
Qed.

Lemma root_live s l : Some l ∈ roots s → live s l.
Proof. intros Hl. exists l. split; [done | constructor]. Qed.

Lemma collect_if_due_cases s s0 :
  collect_if_due s = Ok s0 →
  (numObjects (vm s) ≠ maxObjects (vm s) ∧ s0 = s) ∨
  (numObjects (vm s) = maxObjects (vm s) ∧ gc (printf "Auto gc is ran" s) = Ok s0).
Proof.
  unfold collect_if_due. destruct (Z.eqb_spec (numObjects (vm s)) (maxObjects (vm s))).
  - by right.
  - intros [= ->]. by left.
Qed.

Lemma collect_if_due_Ok s s0 : vm_inv s → collect_if_due s = Ok s0 → due_post s s0.
Proof.
  intros Hinv [[_ ->]|[_ E]]%collect_if_due_cases.
  - split; try done; try lia. intros l o Ho _. exists o. by split.
  - apply gc_Ok in E as [Hinv' Hstk Hsz Hout Hal Hpay Hcnt Hthr];
      [|by apply vm_inv_printf].
    split; try done. intros l Hl%Hal. by apply (live_alloc s).
Qed.

Lemma collect_if_due_spec s :
  vm_inv s →
  (numObjects (vm s) = maxObjects (vm s) → numObjects (vm s) * 2 ≤ INT_MAX) →
  ∃ s0, collect_if_due s = Ok s0.
Proof.
  intros Hinv Hfit. unfold collect_if_due.
  destruct (Z.eqb_spec (numObjects (vm s)) (maxObjects (vm s))) as [E|]; [|eauto].
  destruct (gc_spec (printf "Auto gc is ran" s)) as (s0 & -> & _);
    [by apply vm_inv_printf | by apply Hfit | eauto].
Qed.

Lemma root_ok_insert h l o r : h !! l = None → root_ok h r → root_ok (<[l := o]> h) r.
Proof.
  intros Hl (a & -> & Ha). exists a. split; [done|].
  rewrite lookup_insert_ne; [done|]. intros ->. rewrite Hl in Ha. by destruct Ha.
Qed.

(** A fresh object, linked at the head of the registry, whose children (if it
    is a pair) are allocated, together with any stack of allocated objects,
    gives a state that satisfies the invariant again. *)
Lemma vm_inv_alloc s0 ty v hd tl stack' size' :
  vm_inv s0 → numObjects (vm s0) + 1 ≤ INT_MAX →
  (ty = OBJ_PAIR → root_ok (heap s0) hd ∧ root_ok (heap s0) tl) →
  length stack' = STACK_MAX → (size' ≤ STACK_MAX)%nat →
  Forall (λ r, r = Some (malloc (heap s0)) ∨ root_ok (heap s0) r) (take size' stack') →
  vm_inv (mkState (mkVM (numObjects (vm s0) + 1) (maxObjects (vm s0))
                        (Some (malloc (heap s0))) stack' size')
                  (<[malloc (heap s0) := mkObject (firstObject (vm s0)) false ty v hd tl]>
                     (heap s0))
                  (out s0)).
Proof.
  intros [(L & Hreg & Hall & Hnum) Hu Hwf Hr Hlen Hsz Hrange] Hfit Hch Hlen' Hsz' Hroots.
  pose proof (malloc_fresh (heap s0)) as Hfresh. set (l := malloc (heap s0)) in *.
  split; simpl.
  - exists (l :: L). split_and!.
    + simpl. split; [done|]. eexists. rewrite lookup_insert_eq. split; [done|]. simpl.
      eapply reg_list_frame; [|exact Hreg]. intros x Hx. rewrite lookup_insert_ne; [done|].
      intros ->. pose proof (reg_list_alloc _ _ _ _ Hreg Hx) as [? ?]. congruence.
    + intros x. destruct (decide (x = l)) as [->|Hne]; [by left|].
      rewrite lookup_insert_ne by done. right. by apply Hall.
    + rewrite Hnum. simpl. lia.
  - intros x o. destruct (decide (x = l)) as [->|Hne].
    + rewrite lookup_insert_eq. by intros [= <-].
    + rewrite lookup_insert_ne by done. apply Hu.
  - intros x o. destruct (decide (x = l)) as [->|Hne].
    + rewrite lookup_insert_eq. intros [= <-]. simpl. intros Hty.
      destruct (Hch Hty) as [Hhd Htl].
      apply (root_ok_insert _ l (mkObject (firstObject (vm s0)) false ty v hd tl)) in Hhd, Htl;
        done.
    + rewrite lookup_insert_ne by done. intros Ho Hty.
      destruct (Hwf x o Ho Hty) as [(a & Ha & Hsa) (b & Hb & Hsb)].
      split; [exists a | exists b]; (split; [done|]);
        (rewrite lookup_insert_ne; [done|]); intros ->; rewrite Hfresh in *;
        by (destruct Hsa || destruct Hsb).
  - unfold roots. simpl. eapply Forall_impl; [exact Hroots|]. intros r [->|Hro].
    + exists l. split; [done|]. rewrite lookup_insert_eq. eauto.
    + by apply root_ok_insert.
  - done.
  - done.
  - done.
Qed.

Lemma take_S_insert {A} (l : list A) n x :
  (n < length l)%nat → take (S n) (<[n := x]> l) = take n l ++ [x].
Proof.
  intros Hn. rewrite (take_S_r _ _ x) by by apply list_lookup_insert_eq.
  by rewrite take_insert_ge.
Qed.

Lemma Forall_take_le {A} (P : A → Prop) (l : list A) n m :
  (m ≤ n)%nat → Forall P (take n l) → Forall P (take m l).
Proof.
  intros Hle Hf. replace m with (min m n) by lia. rewrite <- take_take.
  by apply Forall_take.
Qed.

Lemma roots_lookup s i p :
  vm_inv s → (i < stackSize (vm s))%nat → stack (vm s) !! i = Some p →
  root_ok (heap s) p.
Proof.
  intros Hinv Hi Hp. pose proof (inv_roots s Hinv) as Hf.
  rewrite Forall_lookup in Hf. apply (Hf i). unfold roots.
  by rewrite lookup_take_lt.
Qed.

Lemma pushed_int_inv s0 v :
  vm_inv s0 → numObjects (vm s0) + 1 ≤ INT_MAX → (stackSize (vm s0) < STACK_MAX)%nat →
  vm_inv (pushed_int v s0).
Proof.
  intros Hinv Hfit Hsz. unfold pushed_int. apply vm_inv_alloc; try done.
  - by rewrite length_insert, (inv_stack_length s0).
  - rewrite take_S_insert by by rewrite (inv_stack_length s0).
    apply Forall_app. split.
    + eapply Forall_impl; [apply (inv_roots s0 Hinv)|]. by right.
    + apply Forall_singleton. by left.
Qed.

Lemma pushed_pair_inv s0 hd tl :
  vm_inv s0 → numObjects (vm s0) + 1 ≤ INT_MAX → (2 ≤ stackSize (vm s0))%nat →
  stack (vm s0) !! (stackSize (vm s0) - 1)%nat = Some tl →
  stack (vm s0) !! (stackSize (vm s0) - 2)%nat = Some hd →
  vm_inv (pushed_pair hd tl s0).
Proof.
  intros Hinv Hfit Hsz Htl Hhd. unfold pushed_pair.
  pose proof (inv_stackSize s0 Hinv) as Hmax. pose proof (inv_stack_length s0 Hinv) as Hlen.
  apply vm_inv_alloc; try done.
  - intros _. split;
      [apply (roots_lookup s0 (stackSize (vm s0) - 2)) |
       apply (roots_lookup s0 (stackSize (vm s0) - 1))]; try done; lia.
  - by rewrite length_insert.
  - lia.
  - replace (stackSize (vm s0) - 1)%nat with (S (stackSize (vm s0) - 2)) by lia.
    rewrite take_S_insert by lia. apply Forall_app. split.
    + eapply Forall_impl; [|intros r Hr; right; exact Hr].
      eapply (Forall_take_le _ _ (stackSize (vm s0))); [lia|]. apply (inv_roots s0 Hinv).
    + apply Forall_singleton. by left.
Qed.

Lemma pushInt_inv s v s' : vm_inv s → pushInt s v = Ok s' → vm_inv s'.
Proof.
  intros Hinv (s0 & E & Hr & Hsz & ->)%pushInt_Ok.
  apply pushed_int_inv; [|lia|done]. by apply (due_inv s), collect_if_due_Ok.
Qed.

Lemma pushPair_inv s s' l : vm_inv s → pushPair s = Ok (s', l) → vm_inv s'.
Proof.
  intros Hinv (s0 & hd & tl & E & Hr & Hsz & _ & Htl & Hhd & -> & ->)%pushPair_Ok.
  apply pushed_pair_inv; try done; [|lia]. by apply (due_inv s), collect_if_due_Ok.
Qed.

Lemma pop_Ok s s' p :
  pop s = Ok (s', p) →
  (0 < stackSize (vm s))%nat ∧ stack (vm s) !! (stackSize (vm s) - 1)%nat = Some p ∧
  s' = set_stackSize (stackSize (vm s) - 1) s.
Proof.
  unfold pop, assert. case_bool_decide as Hsz; simpl; [|done].
  replace (pred (stackSize (vm s))) with (stackSize (vm s) - 1)%nat by lia.
  destruct (stack (vm s) !! _) as [q|] eqn:E; [|done]. by intros [= <- <-].
Qed.

Lemma pop_inv s s' p : vm_inv s → pop s = Ok (s', p) → vm_inv s' ∧ root_ok (heap s) p.
Proof.
  intros Hinv (Hsz & Hp & ->)%pop_Ok.
  split; [|apply (roots_lookup s (stackSize (vm s) - 1)); try done; lia].
  destruct Hinv as [Hreg Hu Hwf Hr Hlen Hmax Hrange]. split; try done; simpl; [|lia].
  unfold roots in *. simpl. eapply Forall_take_le; [|exact Hr]. lia.
Qed.

Lemma push_Ok s p s' :
  push s p = Ok s' →
  (stackSize (vm s) < STACK_MAX)%nat ∧
  s' = with_vm (mkVM (numObjects (vm s)) (maxObjects (vm s)) (firstObject (vm s))
                     (<[stackSize (vm s) := p]> (stack (vm s))) (S (stackSize (vm s)))) s.
Proof.
  unfold push, assert. case_bool_decide as Hsz; simpl; [|done]. by intros [= <-].
Qed.

Lemma push_inv s p s' : vm_inv s → root_ok (heap s) p → push s p = Ok s' → vm_inv s'.
Proof.
  intros [Hreg Hu Hwf Hr Hlen Hmax Hrange] Hp (Hsz & ->)%push_Ok.
  split; try done; simpl.
  - unfold roots in *. simpl. rewrite take_S_insert by lia.
    apply Forall_app. split; [done|]. by apply Forall_singleton.
  - by rewrite length_insert.
Qed.

(** A write by the mutator to a field of an object. *)
Lemma store_inv f a s :
  vm_inv s →
  (∀ o, next (f o) = next o ∧ marked (f o) = marked o ∧ type (f o) = type o) →
  (∀ o, heap s !! a = Some o → type o = OBJ_PAIR →
        root_ok (heap s) (head (f o)) ∧ root_ok (heap s) (tail (f o))) →
  vm_inv (store f a s).
Proof.
  intros [(L & Hreg & Hall & Hnum) Hu Hwf Hr Hlen Hmax Hrange] Hf Hch.
  assert (∀ x, is_Some (heap s !! x) → is_Some (alter f a (heap s) !! x)) as Hal.
  { intros x [o Ho]. destruct (decide (a = x)) as [->|Hne].
    - rewrite lookup_alter_eq, Ho. eauto.
    - rewrite lookup_alter_ne by done. eauto. }
  assert (∀ r, root_ok (heap s) r → root_ok (alter f a (heap s)) r) as Hro.
  { intros r (x & -> & Hx). exists x. auto. }
  split; simpl; try done.
  - exists L. split_and!; try done.
    + eapply reg_list_frame; [|exact Hreg]. intros x _.
      destruct (decide (a = x)) as [->|Hne]; [|by rewrite lookup_alter_ne].
      rewrite lookup_alter_eq. destruct (heap s !! x) as [o|]; [|done]. simpl.
      by destruct (Hf o) as (-> & _).
    + intros x [o Ho]. apply Hall. destruct (decide (a = x)) as [->|Hne].
      * rewrite lookup_alter_eq in Ho. destruct (heap s !! x); [eauto | done].
      * rewrite lookup_alter_ne in Ho by done. eauto.
  - intros x o. destruct (decide (a = x)) as [->|Hne].
    + rewrite lookup_alter_eq. destruct (heap s !! x) as [o0|] eqn:E; [|done].
      intros [= <-]. destruct (Hf o0) as (_ & -> & _). by eapply Hu.
    + rewrite lookup_alter_ne by done. apply Hu.
  - intros x o. destruct (decide (a = x)) as [->|Hne].
    + rewrite lookup_alter_eq. destruct (heap s !! x) as [o0|] eqn:E; [|done].
      intros [= <-] Hty. destruct (Hf o0) as (_ & _ & Hty0). rewrite Hty0 in Hty.
      destruct (Hch o0 eq_refl Hty) as [Hh Ht]. apply Hro in Hh, Ht. done.
    + rewrite lookup_alter_ne by done. intros Ho Hty.
      destruct (Hwf x o Ho Hty) as [(c & Hc & Hsc) (d & Hd & Hsd)].
      split; [exists c | exists d]; auto.
  - unfold roots in *. simpl. eapply Forall_impl; [exact Hr | done].
Qed.

(** ** Reachable states *)

Lemma newVM_inv : vm_inv newVM.
Proof.
  split; simpl; try done.
  - exists []. split_and!; try done. intros l [o Ho]. by rewrite lookup_empty in Ho.
  - unfold STACK_MAX. lia.
Qed.

Lemma step_inv s s' : step s s' → vm_inv s → vm_inv s'.
Proof.
  intros Hstep Hinv. destruct Hstep as
    [s v s' E | s s' l E | s s' p E | s l s' Hl E | s s' E | s a b Ha Hb | s a b Ha Hb].
  - by eapply pushInt_inv.
  - by eapply pushPair_inv.
  - by eapply pop_inv.
  - eapply push_inv; [done | | done]. exists l. done.
  - by apply (gc_inv s), gc_Ok.
  - apply store_inv; [done | by intros [] |]. intros o Ho Hty. simpl. split.
    + exists b. done.
    + by destruct (inv_wf s Hinv a o Ho Hty) as [_ ?].
  - apply store_inv; [done | by intros [] |]. intros o Ho Hty. simpl. split.
    + by destruct (inv_wf s Hinv a o Ho Hty) as [? _].
    + exists b. done.
Qed.

Lemma reachable_inv s : reachable s → vm_inv s.
Proof.
  unfold reachable. intros H. pose proof newVM_inv as Hinv. revert Hinv.
  induction H as [|x y z Hxy _ IH]; [done|]. intros Hx. eapply IH, step_inv; done.
Qed.

(** ** A second collection finds nothing to do *)

Lemma reg_list_next_eq h h' L : ∀ p p',
  reg_list h p L → reg_list h' p' L →
  p = p' ∧ ∀ l, l ∈ L → next <$> h !! l = next <$> h' !! l.
Proof.
  induction L as [|a L IH]; simpl; intros p p'.
  - intros -> ->. split; [done|]. intros l Hl. by apply elem_of_nil in Hl.
  - intros (-> & o & Ho & Hr) (-> & o' & Ho' & Hr'). split; [done|].
    destruct (IH _ _ Hr Hr') as [Hn Hrest]. intros l [->|Hl]%elem_of_cons; [|auto].
    rewrite Ho, Ho'. simpl. by rewrite Hn.
Qed.

Lemma reach_transfer h h' r x :
  reach h r x → (∀ a b, reach h r a → edge h a b → edge h' a b) → reach h' r x.
Proof.
  induction 1 as [|r y x He Hr IH]; intros Htr; [constructor|].
  econstructor; [apply Htr; [constructor | exact He]|].
  apply IH. intros a b Ha. apply Htr. by econstructor.
Qed.

Lemma gc_post_live s s' : vm_inv s → gc_post s s' → ∀ l, live s l → live s' l.
Proof.
  intros Hinv Hpost l (r & Hr & Hl). exists r. split.
  { unfold roots in *. by rewrite (gc_stack _ _ Hpost), (gc_stackSize _ _ Hpost). }
  eapply reach_transfer; [exact Hl|]. intros a b Ha (o & Ho & Hty & Hc).
  destruct (gc_payload _ _ Hpost a o Ho) as (o' & Ho' & Hty' & _ & Hh & Ht).
  { exists r. done. }
  exists o'. by rewrite Hty', Hh, Ht.
Qed.

Lemma object_eq o o' :
  next o = next o' → marked o = marked o' → same_payload o o' → o = o'.
Proof. destruct o, o'. unfold same_payload. simpl. intros -> -> (-> & -> & -> & ->). done. Qed.

Lemma State_eq s s' :
  numObjects (vm s) = numObjects (vm s') → maxObjects (vm s) = maxObjects (vm s') →
  firstObject (vm s) = firstObject (vm s') → stack (vm s) = stack (vm s') →
  stackSize (vm s) = stackSize (vm s') → heap s = heap s' → out s = out s' → s = s'.
Proof. destruct s as [[] ? ?], s' as [[] ? ?]. simpl. by intros -> -> -> -> -> -> ->. Qed.

Lemma filter_all {A} (P : A → Prop) `{∀ x, Decision (P x)} (l : list A) :
  (∀ x, x ∈ l → P x) → filter P l = l.
Proof.
  induction l as [|a l IH]; intros Hp; [done|].
  rewrite filter_cons_True by (apply Hp; by left).
  f_equal. apply IH. intros x Hx. apply Hp. by right.
Qed.

(** A state in which every object is live and the threshold is twice the
    count is left as it is by a collection. *)
Lemma gc_fixed s :
  vm_inv s → (∀ l, is_Some (heap s !! l) → live s l) →
  maxObjects (vm s) = numObjects (vm s) * 2 → numObjects (vm s) * 2 ≤ INT_MAX →
  gc s = Ok s.
Proof.
  intros Hinv Hlive Hmax Hfit.
  destruct (markAll_spec s Hinv) as (s1 & E1 & Hvm1 & Hout1 & Hs1 & Hcl1 & Hm1).
  pose proof Hinv as [(L & Hreg & Hall & Hnum) Hu Hwf Hr Hlen Hsz Hrange].
  assert (reg_list (heap s1) (firstObject (vm s1)) L) as Hreg1.
  { rewrite Hvm1. by eapply same_shape_reg_list. }
  destruct (sweep_spec s1 L Hreg1) as (s2 & E2 & _ & Hpost).
  { rewrite Hvm1. unfold INT_MIN. lia. }
  destruct Hpost as ((p' & Hrd' & Hreg') & _ & Hmk & Hoth & _ & Hnum2 & Hmax2 & Hstk2 &
                     Hsz2 & Hout2 & _).
  assert (filter (marked_in (heap s1)) L = L) as Hfil.
  { apply filter_all. intros x Hx. apply Hm1, Hlive. by eapply reg_list_alloc. }
  rewrite Hfil in *. simpl in Hrd'. simplify_eq.
  destruct (reg_list_next_eq _ _ _ _ _ Hreg Hreg') as [Hfirst Hnext].
  assert (s2 = s) as ->.
  { apply State_eq; try congruence.
    - rewrite Hnum2, Hvm1. lia.
    - apply map_eq. intros l. destruct (decide (l ∈ L)) as [Hin|Hnin].
      + destruct (reg_list_alloc _ _ _ _ Hreg Hin) as [o Ho].
        destruct (same_shape_lookup _ _ _ _ Hs1 Ho) as (o1 & Ho1 & _ & ? & ? & ? & ?).
        assert (marked o1 = true) as Hmo1.
        { assert (marked_in (heap s1) l) as Hml by (apply Hm1, Hlive; eauto).
          apply marked_in_lookup in Hml as (? & ? & ?). congruence. }
        destruct (Hmk l o1 Hin Ho1 Hmo1) as (o2 & Ho2 & Hmo2 & ? & ? & ? & ?).
        rewrite Ho2, Ho. f_equal. apply object_eq.
        * pose proof (Hnext l Hin) as Hn. rewrite Ho, Ho2 in Hn. simpl in Hn. congruence.
        * rewrite Hmo2. symmetry. by eapply Hu.
        * unfold same_payload. split_and!; congruence.
      + rewrite Hoth by done. destruct (heap s !! l) as [o|] eqn:Ho.
        { destruct Hnin. apply Hall. eauto. }
        specialize (Hs1 l). rewrite Ho in Hs1. by destruct (heap s1 !! l). }
  unfold gc. rewrite E1. simpl. rewrite E2. simpl. rewrite arith_ok.
  - simpl. f_equal. apply State_eq; simpl; congruence.
  - unfold INT_MIN. lia.
Qed.

Lemma gc_twice s :
  vm_inv s → numObjects (vm s) * 2 ≤ INT_MAX →
  ∃ s1, gc s = Ok s1 ∧ gc_post s s1 ∧ gc s1 = Ok s1.
Proof.
  intros Hinv Hfit. destruct (gc_spec s Hinv Hfit) as (s1 & E & Hpost).
  exists s1. split_and!; try done.
  apply gc_fixed.
  - apply (gc_inv s s1 Hpost).
  - intros l Hl. apply (gc_post_live s s1 Hinv Hpost), (gc_alloc s s1 Hpost), Hl.
  - apply (gc_threshold s s1 Hpost).
  - pose proof (gc_count s s1 Hpost). lia.
Qed.

(** ** The scenarios of [main.c] *)

Lemma run_op_step o s s' : run_op o s = Ok s' → step s s'.
Proof.
  destruct o as [v| | | |a b|a b]; simpl.
  - apply step_pushInt.
  - destruct (pushPair s) as [[s1 l]| | |] eqn:E; simpl; [|done..].
    intros [= <-]. by eapply step_pushPair.
  - destruct (pop s) as [[s1 p]| | |] eqn:E; simpl; [|done..].
    intros [= <-]. by eapply step_pop.
  - apply step_gc.
  - destruct (is_pair _ _ && is_alloc _ _) eqn:E; [|done]. intros [= <-].
    apply andb_prop in E as [?%bool_decide_eq_true ?%bool_decide_eq_true].
    by apply step_set_head.
  - destruct (is_pair _ _ && is_alloc _ _) eqn:E; [|done]. intros [= <-].
    apply andb_prop in E as [?%bool_decide_eq_true ?%bool_decide_eq_true].
    by apply step_set_tail.
Qed.

Lemma run_reachable ops : ∀ s s', reachable s → run ops s = Ok s' → reachable s'.
Proof.
  induction ops as [|o ops IH]; simpl; intros s s' Hs.
  - by intros [= <-].
  - destruct (run_op o s) as [s1| | |] eqn:E; simpl; [|done..].
    apply IH. eapply rtc_r; [exact Hs|]. by apply (run_op_step o).
Qed.

Lemma cycle_state_run : run cycle_ops newVM = Ok cycle_state.
Proof. vm_compute. reflexivity. Qed.

Lemma cycle_state_reachable : reachable cycle_state.
Proof. eapply run_reachable; [apply rtc_refl | apply cycle_state_run]. Qed.

Example cycle_state_heap :
  heap cycle_state =
  list_to_map
    [(1%positive, mkObject None false OBJ_INT 1 None None);
     (2%positive, mkObject (Some 1%positive) false OBJ_INT 2 None None);
     (3%positive, mkObject (Some 2%positive) false OBJ_PAIR 0 (Some 1%positive) (Some 6%positive));
     (4%positive, mkObject (Some 3%positive) false OBJ_INT 3 None None);
     (5%positive, mkObject (Some 4%positive) false OBJ_INT 4 None None);
     (6%positive, mkObject (Some 5%positive) false OBJ_PAIR 0 (Some 4%positive) (Some 3%positive))].
Proof. vm_compute. reflexivity. Qed.

(** The assertions of the five scenarios of [main.c] hold in the model. *)
Example test1 :
  ∃ s, run [OpPushInt 1; OpPushInt 2; OpGc] newVM = Ok s ∧ numObjects (vm s) = 2.
Proof. eexists. split; [vm_compute; reflexivity|]. vm_compute. done. Qed.

Example test2 :
  ∃ s, run (popped_ops ++ [OpGc]) newVM = Ok s ∧ numObjects (vm s) = 0.
Proof. eexists. split; [vm_compute; reflexivity|]. vm_compute. done. Qed.

Example test3 :
  ∃ s, run nested_ops newVM = Ok s ∧ stackSize (vm s) = 1%nat ∧ numObjects (vm s) = 7.
Proof. eexists. split; [vm_compute; reflexivity|]. vm_compute. done. Qed.

Example test4 :
  ∃ s s', run cycle_ops newVM = Ok s ∧ stackSize (vm s) = 2%nat ∧
          numObjects (vm s) = 6 ∧ gc s = Ok s' ∧ numObjects (vm s') = 4.
Proof.
  do 2 eexists. split; [vm_compute; reflexivity|].
  split; [vm_compute; reflexivity|]. split; [vm_compute; reflexivity|].
  split; [vm_compute; reflexivity|]. vm_compute. done.
Qed.

Example test5 :
  ∃ s, run (full_ops ++ [OpPushPair]) newVM = Ok s ∧ stackSize (vm s) = 3%nat ∧
       numObjects (vm s) = 7.
Proof. eexists. split; [vm_compute; reflexivity|]. vm_compute. done. Qed.

Example cycle_state_vm :
  numObjects (vm cycle_state) = 6 ∧ maxObjects (vm cycle_state) = 8 ∧
  firstObject (vm cycle_state) = Some 6%positive ∧
  roots cycle_state = [Some 3%positive; Some 6%positive].
Proof. vm_compute. done. Qed.

Lemma inv_nonneg s : vm_inv s → 0 ≤ numObjects (vm s).
Proof. intros [(L & _ & _ & ->) _ _ _ _ _ _]. lia. Qed.

Lemma reg_list_cons_fresh h p L l o :
  h !! l = None → next o = p → reg_list h p L →
  reg_list (<[l := o]> h) (Some l) (l :: L).
Proof.
  intros Hl Hn Hreg. simpl. split; [done|]. exists o. rewrite lookup_insert_eq.
  split; [done|]. rewrite Hn. eapply reg_list_frame; [|exact Hreg].
  intros x Hx. rewrite lookup_insert_ne; [done|]. intros ->.
  pose proof (reg_list_alloc _ _ _ _ Hreg Hx) as [? ?]. congruence.
Qed.

Lemma full_state_run : run full_ops newVM = Ok full_state.
Proof. vm_compute. reflexivity. Qed.

Lemma full_state_reachable : reachable full_state.
Proof. eapply run_reachable; [apply rtc_refl | apply full_state_run]. Qed.

Example full_state_vm :
  numObjects (vm full_state) = 8 ∧ maxObjects (vm full_state) = 8 ∧
  roots full_state = [Some 3; Some 6; Some 7; Some 8]%positive.
Proof. vm_compute. done. Qed.

Lemma vm_inv_stack_lookup s i :
  vm_inv s → (i < stackSize (vm s))%nat →
  ∃ l, stack (vm s) !! i = Some (Some l) ∧ is_Some (heap s !! l).
Proof.
  intros Hinv Hi. pose proof (inv_stack_length s Hinv) as Hlen.
  pose proof (inv_stackSize s Hinv) as Hmax.
  destruct (lookup_lt_is_Some_2 (stack (vm s)) i) as [p Hp]; [lia|].
  destruct (roots_lookup s i p Hinv Hi Hp) as (l & -> & Hl). eauto.
Qed.

(** What [pushPair] does in a state [s] that satisfies the invariant, in
    terms of the state [s0] that the first statement of [newObject] leaves. *)
Lemma pushPair_spec s s0 :
  vm_inv s → collect_if_due s = Ok s0 → numObjects (vm s0) + 1 ≤ INT_MAX →
  (2 ≤ stackSize (vm s))%nat →
  ∃ hd tl,
    stack (vm s) !! (stackSize (vm s) - 2)%nat = Some (Some hd) ∧
    stack (vm s) !! (stackSize (vm s) - 1)%nat = Some (Some tl) ∧
    is_Some (heap s0 !! hd) ∧ is_Some (heap s0 !! tl) ∧
    pushPair s = Ok (pushed_pair (Some hd) (Some tl) s0, malloc (heap s0)).
Proof.
  intros Hinv E Hfit Hsz. pose proof (collect_if_due_Ok s s0 Hinv E) as Hdue.
  pose proof (due_inv _ _ Hdue) as Hinv0.
  pose proof (due_stack _ _ Hdue) as Hstk. pose proof (due_stackSize _ _ Hdue) as Hsz0.
  destruct (vm_inv_stack_lookup s0 (stackSize (vm s0) - 2)) as (hd & Hhd & Hahd); [done|lia|].
  destruct (vm_inv_stack_lookup s0 (stackSize (vm s0) - 1)) as (tl & Htl & Hatl); [done|lia|].
  exists hd, tl. rewrite <- Hstk, <- Hsz0. split_and!; try done.
  apply pushPair_eq; try done.
  - pose proof (inv_nonneg s0 Hinv0). unfold INT_MIN. lia.
  - lia.
  - pose proof (inv_stackSize s0 Hinv0). lia.
Qed.

Lemma vm_inv_empty s :
  vm_inv s → numObjects (vm s) = 0 → heap s = ∅ ∧ firstObject (vm s) = None.
Proof.
  intros [(L & Hreg & Hall & Hnum) _ _ _ _ _ _] H0.
  destruct L as [|l L]; [|simpl in Hnum; lia]. simpl in Hreg. split; [|done].
  apply map_empty. intros l. destruct (heap s !! l) eqn:E; [|done].
  exfalso. apply (elem_of_nil l), Hall. eauto.
Qed.

Lemma popped_state_run : run popped_ops newVM = Ok popped_state.
Proof. vm_compute. reflexivity. Qed.

Lemma popped_state_reachable : reachable popped_state.
Proof. eapply run_reachable; [apply rtc_refl | apply popped_state_run]. Qed.

(** ** Which operations can end the process *)

Lemma bind_no_fatal {A B} (r : result A) (k : A → result B) :
  no_fatal r → (∀ a, no_fatal (k a)) → no_fatal (bind r k).
Proof.
  intros Hr Hk sf. destruct r as [a|s| |]; simpl; [apply Hk | | done..].
  intros _. by apply (Hr s).
Qed.

Lemma arith_no_fatal z : no_fatal (arith z).
Proof. intros sf. unfold arith. by destruct (int_ok z). Qed.

Lemma mark_fuel_no_fatal n : ∀ h p, no_fatal (mark_fuel n h p).
Proof.
  induction n as [|n IH]; intros h p; [done|]. simpl.
  destruct p as [l|]; [|done]. destruct (h !! l) as [o|]; [|done].
  destruct (marked o); [done|]. destruct (type o); [done|].
  apply bind_no_fatal; auto.
Qed.

Lemma mark_roots_no_fatal rs : ∀ h, no_fatal (mark_roots rs h).
Proof.
  induction rs as [|r rs IH]; intros h; [done|]. simpl.
  apply bind_no_fatal; [apply mark_fuel_no_fatal | auto].
Qed.

Lemma markAll_no_fatal s : no_fatal (markAll s).
Proof. apply bind_no_fatal; [apply mark_roots_no_fatal | done]. Qed.

Lemma sweep_loop_no_fatal n : ∀ s object, no_fatal (sweep_loop n s object).
Proof.
  induction n as [|n IH]; intros s object; [done|]. simpl.
  apply bind_no_fatal.
  { destruct object as [|l]; simpl; [done|]. by destruct (heap s !! l). }
  intros [l|]; [|done]. destruct (heap s !! l) as [o|]; [|done].
  destruct (negb (marked o)); [|apply IH].
  apply bind_no_fatal; [apply arith_no_fatal | intros; apply IH].
Qed.

Lemma gc_no_fatal s : no_fatal (gc s).
Proof.
  apply bind_no_fatal; [apply markAll_no_fatal|]. intros s1.
  apply bind_no_fatal; [apply sweep_loop_no_fatal|]. intros s2.
  apply bind_no_fatal; [apply arith_no_fatal | done].
Qed.

Lemma newObject_no_fatal s ty : no_fatal (newObject s ty).
Proof.
  unfold newObject. apply bind_no_fatal.
  - destruct (_ =? _); [apply gc_no_fatal | done].
  - intros s1. apply bind_no_fatal; [apply arith_no_fatal | done].
Qed.

Lemma push_cases s p :
  push s p =
  if decide (stackSize (vm s) < STACK_MAX)%nat
  then Ok (with_vm (mkVM (numObjects (vm s)) (maxObjects (vm s)) (firstObject (vm s))
                         (<[stackSize (vm s) := p]> (stack (vm s)))
                         (S (stackSize (vm s)))) s)
  else Fatal (printf "Stack overflow!" s).
Proof. unfold push, assert. case_bool_decide; by case_decide. Qed.

Lemma pop_empty s :
  stackSize (vm s) = 0%nat → pop s = Fatal (printf "Stack underflow!" s).
Proof. intros H. unfold pop, assert. by rewrite H. Qed.

Lemma pop_nonempty s :
  vm_inv s → (0 < stackSize (vm s))%nat →
  ∃ l, stack (vm s) !! (stackSize (vm s) - 1)%nat = Some (Some l) ∧
       is_Some (heap s !! l) ∧
       pop s = Ok (set_stackSize (stackSize (vm s) - 1) s, Some l).
Proof.
  intros Hinv Hsz.
  destruct (vm_inv_stack_lookup s (stackSize (vm s) - 1)) as (l & Hl & Hal); [done|lia|].
  exists l. split_and!; try done. unfold pop, assert.
  rewrite bool_decide_eq_true_2 by done. simpl.
  replace (pred (stackSize (vm s))) with (stackSize (vm s) - 1)%nat by lia.
  by rewrite Hl.
Qed.

Lemma pushInt_Fatal s v sf :
  pushInt s v = Fatal sf →
  ∃ s0, collect_if_due s = Ok s0 ∧ ¬ (stackSize (vm s0) < STACK_MAX)%nat ∧
        sf = printf "Stack overflow!"
               (store (set_value v) (malloc (heap s0)) (allocated OBJ_INT s0)).
Proof.
  intros Hp. pose proof Hp as Hp0. unfold pushInt in Hp.
  destruct (newObject s OBJ_INT) as [[s1 l]|sf'| |] eqn:E; simpl in Hp; try done.
  - apply newObject_Ok in E as (s0 & E & Hr & -> & ->). exists s0.
    destruct (decide (stackSize (vm s0) < STACK_MAX)%nat) as [Hsz|Hsz].
    + by rewrite (pushInt_eq s v s0 E Hr Hsz) in Hp0.
    + rewrite (pushInt_overflow s v s0 E Hr Hsz) in Hp0. by simplify_eq.
  - by destruct (newObject_no_fatal s OBJ_INT sf').
Qed.

Lemma pushPair_Fatal s sf :
  vm_inv s → pushPair s = Fatal sf →
  ∃ s0, collect_if_due s = Ok s0 ∧ (stackSize (vm s) < 2)%nat ∧
        last (out sf) = Some "Stack underflow!" ∧
        numObjects (vm sf) = numObjects (vm s0) + 1 ∧
        is_Some (heap sf !! malloc (heap s0)).
Proof.
  intros Hinv Hp. pose proof Hp as Hp0. unfold pushPair in Hp.
  destruct (newObject s OBJ_PAIR) as [[s1 l]|sf'| |] eqn:E; simpl in Hp; try done;
    [|by destruct (newObject_no_fatal s OBJ_PAIR sf')].
  clear Hp. apply newObject_Ok in E as (s0 & E & Hr & -> & ->). exists s0.
  pose proof (collect_if_due_Ok s s0 Hinv E) as Hdue.
  pose proof (due_inv _ _ Hdue) as Hinv0. pose proof (due_stackSize _ _ Hdue) as Hsz0.
  split; [done|].
  destruct (stackSize (vm s)) as [|[|n]] eqn:En.
  - rewrite (pushPair_underflow0 s s0 E Hr Hsz0) in Hp0. simplify_eq. simpl.
    rewrite last_snoc, lookup_insert_eq. split_and!; eauto; lia.
  - destruct (vm_inv_stack_lookup s0 0) as (tl & Htl & _); [done|lia|].
    rewrite (pushPair_underflow1 s s0 (Some tl) E Hr Hsz0 Htl) in Hp0. simplify_eq. simpl.
    rewrite last_snoc, lookup_alter_eq, lookup_insert_eq. split_and!; eauto; lia.
  - destruct (pushPair_spec s s0 Hinv E) as (hd & tl & _ & _ & _ & _ & Ep); [lia|lia|].
    by rewrite Ep in Hp0.
Qed.

(** * The claims *)

(** C1.  On every heap whose pairs refer to allocated objects, cyclic or not,
    the recursive [mark] started on an allocated object terminates: every
    recursion budget above the number of unmarked objects yields the same
    heap.  That heap differs from the initial one in mark bits only.  An
    already marked object is where the recursion stops: a call on a marked
    object changes nothing, and the objects marked afterwards are those
    marked before and exactly those reachable from the start by a path that
    meets no already marked object.  Where no marked object has an unmarked
    child, as at every call made by [markAll], these are all objects
    reachable from the start; on a heap without marks the marked objects
    afterwards are exactly the objects reachable from the start. *)
Theorem mark_terminates_and_marks_reachable (h : Heap) (l : loc) :
  heap_wf h → is_Some (h !! l) →
  ∃ h', (∀ n, (size (unmarked h) < n)%nat → mark_fuel n h (Some l) = Ok h') ∧
        mark h (Some l) = Ok h' ∧
        same_shape h h' ∧
        (marked_in h l → h' = h) ∧
        (∀ x, marked_in h' x ↔ marked_in h x ∨ upath h l x) ∧
        (closed h → ∀ x, marked_in h' x ↔ marked_in h x ∨ reach h l x) ∧
        ((∀ x, ¬ marked_in h x) → ∀ x, marked_in h' x ↔ reach h l x).
Proof.
  intros Hwf Hl. destruct (mark_spec h l Hwf Hl) as (h' & E & Hpost).
  exists h'. split_and!.
  - intros n Hn.
    destruct (mark_fuel_spec (S (size (unmarked h))) h l Hwf Hl) as (h'' & E' & _); [lia|].
    pose proof (mark_fuel_mono _ (S (size h)) _ _ _ E') as E''. unfold mark in E.
    rewrite E'' in E by (pose proof (unmarked_size h); lia). simplify_eq.
    eapply mark_fuel_mono; [exact E'|lia].
  - done.
  - by destruct Hpost.
  - intros Hm. rewrite (mark_marked h l Hm) in E. by simplify_eq.
  - intros x. split.
    + destruct Hpost as (_ & _ & _ & Hp & _). apply Hp.
    + intros [Hx|Hx]; [|by eapply mark_post_upath].
      destruct Hpost as (_ & Hm & _). auto.
  - intros Hcl. by apply mark_post_closed.
  - intros Hnone x. assert (closed h) as Hcl by (intros a b Ha; by destruct (Hnone a)).
    destruct (mark_post_closed _ _ _ Hpost Hcl) as [_ Hiff]. rewrite Hiff.
    split; [intros [?%Hnone|?]; done | by right].
Qed.

Lemma mark_terminates_and_marks_reachable_witness :
  heap_wf (heap cycle_state) ∧ is_Some (heap cycle_state !! 3%positive) ∧
  ∃ h', (∀ n, (size (unmarked (heap cycle_state)) < n)%nat →
           mark_fuel n (heap cycle_state) (Some 3%positive) = Ok h') ∧
        mark (heap cycle_state) (Some 3%positive) = Ok h' ∧
        same_shape (heap cycle_state) h' ∧
        (marked_in (heap cycle_state) 3%positive → h' = heap cycle_state) ∧
        (∀ x, marked_in h' x ↔
              marked_in (heap cycle_state) x ∨ upath (heap cycle_state) 3%positive x) ∧
        (closed (heap cycle_state) →
         ∀ x, marked_in h' x ↔
              marked_in (heap cycle_state) x ∨ reach (heap cycle_state) 3%positive x) ∧
        ((∀ x, ¬ marked_in (heap cycle_state) x) →
         ∀ x, marked_in h' x ↔ reach (heap cycle_state) 3%positive x).
Proof.
  assert (heap_wf (heap cycle_state)) as Hwf
    by (apply heap_wfb_spec; vm_compute; reflexivity).
  assert (is_Some (heap cycle_state !! 3%positive)) as Hl
    by (eexists; vm_compute; reflexivity).
  split; [exact Hwf|]. split; [exact Hl|].
  exact (mark_terminates_and_marks_reachable _ _ Hwf Hl).
Defined.

(** The trace from the first pair of the cyclic scenario marks the two pairs
    and the integers 1 and 3. *)
Example mark_cycle :
  ∃ h', mark (heap cycle_state) (Some 3%positive) = Ok h' ∧
        filter (λ l, bool_decide (marked_in h' l)) [1; 2; 3; 4; 5; 6]%positive
        = [1; 3; 4; 6]%positive.
Proof. eexists. split; [vm_compute; reflexivity|]. vm_compute. reflexivity. Qed.

(** The recursion stops at an object that is marked already: started on the
    pair at 1, the trace marks that pair and leaves the integer behind the
    marked pair alone; started on the marked pair it changes nothing. *)
Example mark_midtrace :
  (∃ h', mark midtrace_heap (Some 1%positive) = Ok h' ∧
         filter (λ l, bool_decide (marked_in h' l)) [1; 2; 3]%positive = [1; 2]%positive) ∧
  mark midtrace_heap (Some 2%positive) = Ok midtrace_heap.
Proof.
  split; [eexists; split; [vm_compute; reflexivity|]|]; vm_compute; reflexivity.
Qed.

(** C2.  When the registry is a list [L] of allocated objects ending in
    [NULL], [sweep] returns after exactly one iteration per object of [L]
    (and a last one that finds [NULL]).  Every unmarked object of [L] is
    unlinked and deallocated and [numObjects] is decremented once for it;
    every marked object of [L] stays, keeps its payload and has its mark bit
    cleared; the registry afterwards is the list of the marked objects in
    their order.  Nothing else changes: objects outside the registry, the
    stack, [maxObjects] and the output are as before. *)
Theorem sweep_traverses_registry_once (s : State) (L : list loc) :
  reg_list (heap s) (firstObject (vm s)) L →
  INT_MIN + Z.of_nat (length L) ≤ numObjects (vm s) ≤ INT_MAX →
  ∃ s', sweep s = Ok s' ∧
    (∀ n, sweep_loop n s LFirst = if decide (length L < n)%nat then Ok s' else Timeout) ∧
    reg_list (heap s') (firstObject (vm s')) (filter (marked_in (heap s)) L) ∧
    (∀ l, l ∈ L → unmarked_in (heap s) l → heap s' !! l = None) ∧
    (∀ l o, l ∈ L → heap s !! l = Some o → marked o = true →
       ∃ o', heap s' !! l = Some o' ∧ marked o' = false ∧ same_payload o o') ∧
    (∀ l, l ∉ L → heap s' !! l = heap s !! l) ∧
    numObjects (vm s') =
      numObjects (vm s) - Z.of_nat (length (filter (unmarked_in (heap s)) L)) ∧
    maxObjects (vm s') = maxObjects (vm s) ∧
    stack (vm s') = stack (vm s) ∧
    stackSize (vm s') = stackSize (vm s) ∧
    out s' = out s.
Proof.
  intros Hreg Hrange. destruct (sweep_spec s L Hreg Hrange) as (s' & E & Hfuel & Hpost).
  destruct Hpost as ((p' & Hrd' & Hreg') & Hun & Hmk & Hoth & _ & Hnum & Hmax & Hstk &
                     Hsz & Hout & _).
  simpl in Hrd'. simplify_eq. exists s'. split_and!; try done.
  - intros l Hl. by apply Hoth.
  - rewrite Hnum. pose proof (reg_list_marked_split _ _ _ Hreg). f_equal. f_equal. lia.
Qed.

Lemma sweep_traverses_registry_once_witness :
  reg_list (heap cycle_marked) (firstObject (vm cycle_marked)) cycle_registry ∧
  INT_MIN + Z.of_nat (length cycle_registry) ≤ numObjects (vm cycle_marked) ≤ INT_MAX ∧
  ∃ s', sweep cycle_marked = Ok s' ∧
    (∀ n, sweep_loop n cycle_marked LFirst =
          if decide (length cycle_registry < n)%nat then Ok s' else Timeout) ∧
    reg_list (heap s') (firstObject (vm s'))
      (filter (marked_in (heap cycle_marked)) cycle_registry) ∧
    (∀ l, l ∈ cycle_registry → unmarked_in (heap cycle_marked) l → heap s' !! l = None) ∧
    (∀ l o, l ∈ cycle_registry → heap cycle_marked !! l = Some o → marked o = true →
       ∃ o', heap s' !! l = Some o' ∧ marked o' = false ∧ same_payload o o') ∧
    (∀ l, l ∉ cycle_registry → heap s' !! l = heap cycle_marked !! l) ∧
    numObjects (vm s') =
      numObjects (vm cycle_marked)
      - Z.of_nat (length (filter (unmarked_in (heap cycle_marked)) cycle_registry)) ∧
    maxObjects (vm s') = maxObjects (vm cycle_marked) ∧
    stack (vm s') = stack (vm cycle_marked) ∧
    stackSize (vm s') = stackSize (vm cycle_marked) ∧
    out s' = out cycle_marked.
Proof.
  assert (reg_list (heap cycle_marked) (firstObject (vm cycle_marked)) cycle_registry)
    as Hreg.
  { vm_compute. repeat (split; [reflexivity|]; eexists; split; [reflexivity|]).
    reflexivity. }
  assert (INT_MIN + Z.of_nat (length cycle_registry) ≤ numObjects (vm cycle_marked)
          ≤ INT_MAX) as Hrange
    by (vm_compute; split; discriminate).
  split; [exact Hreg|]. split; [exact Hrange|].
  exact (sweep_traverses_registry_once cycle_marked cycle_registry Hreg Hrange).
Defined.

(** In that scenario the sweep frees the integers 2 and 4 and keeps four
    objects, all unmarked. *)
Example sweep_cycle :
  ∃ s', sweep cycle_marked = Ok s' ∧ numObjects (vm s') = 4 ∧
        heap s' =
        list_to_map
          [(1%positive, mkObject None false OBJ_INT 1 None None);
           (3%positive, mkObject (Some 1%positive) false OBJ_PAIR 0 (Some 1%positive) (Some 6%positive));
           (4%positive, mkObject (Some 3%positive) false OBJ_INT 3 None None);
           (6%positive, mkObject (Some 4%positive) false OBJ_PAIR 0 (Some 4%positive) (Some 3%positive))].
Proof. eexists. split; [vm_compute; reflexivity|]. vm_compute. done. Qed.

(** C3.  [newObject] first compares [numObjects] with [maxObjects].  Exactly
    when they are equal it prints its notice and runs a full collection,
    which leaves the state [s0]; otherwise [s0] is the state it was called
    in.  It then creates, at an address not in use in [s0], an object of the
    requested type with its mark bit clear, makes it the head of the
    registry list with the old head as its successor, increments
    [numObjects] by one and returns the address.  The stack, [maxObjects]
    and the output after the collection are left alone. *)
Theorem newObject_collects_when_due_then_allocates (s : State) (ty : ObjectType) :
  vm_inv s →
  numObjects (vm s) < INT_MAX →
  (numObjects (vm s) = maxObjects (vm s) → numObjects (vm s) * 2 ≤ INT_MAX) →
  ∃ s0 s' l,
    (if decide (numObjects (vm s) = maxObjects (vm s))
     then gc (printf "Auto gc is ran" s) = Ok s0
     else s0 = s) ∧
    newObject s ty = Ok (s', l) ∧
    heap s0 !! l = None ∧
    heap s' = <[l := mkObject (firstObject (vm s0)) false ty 0 None None]> (heap s0) ∧
    firstObject (vm s') = Some l ∧
    (∀ L, reg_list (heap s0) (firstObject (vm s0)) L →
          reg_list (heap s') (firstObject (vm s')) (l :: L)) ∧
    numObjects (vm s') = numObjects (vm s0) + 1 ∧
    maxObjects (vm s') = maxObjects (vm s0) ∧
    stack (vm s') = stack (vm s0) ∧
    stackSize (vm s') = stackSize (vm s0) ∧
    out s' = out s0.
Proof.
  intros Hinv Hlt Hfit.
  destruct (collect_if_due_spec s Hinv Hfit) as (s0 & E).
  pose proof (collect_if_due_Ok s s0 Hinv E) as Hdue.
  pose proof (inv_nonneg s0 (due_inv _ _ Hdue)) as Hpos.
  pose proof (due_count _ _ Hdue) as Hcnt.
  exists s0, (allocated ty s0), (malloc (heap s0)). split_and!; try done.
  - apply collect_if_due_cases in E as [[Hne ->]|[Heq E]]; by case_decide.
  - apply newObject_eq; [done|]. unfold INT_MIN. lia.
  - apply malloc_fresh.
  - intros L. by apply reg_list_cons_fresh; [apply malloc_fresh|].
Qed.

Lemma newObject_collects_when_due_then_allocates_witness :
  vm_inv full_state ∧
  numObjects (vm full_state) < INT_MAX ∧
  (numObjects (vm full_state) = maxObjects (vm full_state) →
   numObjects (vm full_state) * 2 ≤ INT_MAX) ∧
  ∃ s0 s' l,
    (if decide (numObjects (vm full_state) = maxObjects (vm full_state))
     then gc (printf "Auto gc is ran" full_state) = Ok s0
     else s0 = full_state) ∧
    newObject full_state OBJ_PAIR = Ok (s', l) ∧
    heap s0 !! l = None ∧
    heap s' = <[l := mkObject (firstObject (vm s0)) false OBJ_PAIR 0 None None]> (heap s0) ∧
    firstObject (vm s') = Some l ∧
    (∀ L, reg_list (heap s0) (firstObject (vm s0)) L →
          reg_list (heap s') (firstObject (vm s')) (l :: L)) ∧
    numObjects (vm s') = numObjects (vm s0) + 1 ∧
    maxObjects (vm s') = maxObjects (vm s0) ∧
    stack (vm s') = stack (vm s0) ∧
    stackSize (vm s') = stackSize (vm s0) ∧
    out s' = out s0.
Proof.
  assert (vm_inv full_state) as Hinv by apply reachable_inv, full_state_reachable.
  assert (numObjects (vm full_state) < INT_MAX) as Hlt by (vm_compute; reflexivity).
  assert (numObjects (vm full_state) = maxObjects (vm full_state) →
          numObjects (vm full_state) * 2 ≤ INT_MAX) as Hfit
    by (intros _; vm_compute; discriminate).
  split; [exact Hinv|]. split; [exact Hlt|]. split; [exact Hfit|].
  exact (newObject_collects_when_due_then_allocates full_state OBJ_PAIR Hinv Hlt Hfit).
Defined.

(** In that scenario the allocation collects first: the two unreachable
    integers are gone, seven objects remain and the threshold is twelve. *)
Example newObject_full :
  ∃ s' l, newObject full_state OBJ_PAIR = Ok (s', l) ∧
          numObjects (vm s') = 7 ∧ maxObjects (vm s') = 12 ∧
          out s' = ["Auto gc is ran"] ∧
          heap s' !! 2%positive = None ∧ heap s' !! 5%positive = None.
Proof. do 2 eexists. split; [vm_compute; reflexivity|]. vm_compute. done. Qed.

(** C4.  A collection is three steps in this order.  [markAll] marks exactly
    the objects reachable from the entries of the operand stack and touches
    nothing but mark bits.  [sweep] then runs on the marked heap.  Last,
    [maxObjects] becomes twice the [numObjects] that the sweep left.  The
    stack and its size are the same before and after, the objects left are
    exactly those reachable from the stack, with their payload, and no
    object is created. *)
Theorem gc_marks_sweeps_rescales (s : State) :
  vm_inv s → numObjects (vm s) * 2 ≤ INT_MAX →
  ∃ s1 s2 s',
    markAll s = Ok s1 ∧
    vm s1 = vm s ∧ same_shape (heap s) (heap s1) ∧
    (∀ x, marked_in (heap s1) x ↔ live s x) ∧
    sweep s1 = Ok s2 ∧
    s' = set_maxObjects (numObjects (vm s2) * 2) s2 ∧
    gc s = Ok s' ∧
    maxObjects (vm s') = numObjects (vm s') * 2 ∧
    stack (vm s') = stack (vm s) ∧
    stackSize (vm s') = stackSize (vm s) ∧
    out s' = out s ∧
    (∀ l, is_Some (heap s' !! l) ↔ live s l) ∧
    (∀ l o, heap s !! l = Some o → live s l →
       ∃ o', heap s' !! l = Some o' ∧ same_payload o o') ∧
    (∀ l, is_Some (heap s' !! l) → is_Some (heap s !! l)).
Proof.
  intros Hinv Hfit.
  destruct (gc_phases s Hinv) as (s1 & s2 & E1 & Hm & E2 & E & Hpos & Hpost).
  destruct (markAll_spec s Hinv) as (s1' & E1' & Hvm1 & _ & Hs1 & _).
  rewrite E1 in E1'. simplify_eq.
  pose proof Hpost as [_ Hstk Hsz Hout Hal Hpay Hcnt Hthr].
  exists s1', s2, (set_maxObjects (numObjects (vm s2) * 2) s2). split_and!; try done.
  - rewrite E, arith_ok; [done|]. simpl in Hcnt. unfold INT_MIN. lia.
  - intros l Hl%Hal. by apply live_alloc.
Qed.

Lemma gc_marks_sweeps_rescales_witness :
  vm_inv full_state ∧ numObjects (vm full_state) * 2 ≤ INT_MAX ∧
  ∃ s1 s2 s',
    markAll full_state = Ok s1 ∧
    vm s1 = vm full_state ∧ same_shape (heap full_state) (heap s1) ∧
    (∀ x, marked_in (heap s1) x ↔ live full_state x) ∧
    sweep s1 = Ok s2 ∧
    s' = set_maxObjects (numObjects (vm s2) * 2) s2 ∧
    gc full_state = Ok s' ∧
    maxObjects (vm s') = numObjects (vm s') * 2 ∧
    stack (vm s') = stack (vm full_state) ∧
    stackSize (vm s') = stackSize (vm full_state) ∧
    out s' = out full_state ∧
    (∀ l, is_Some (heap s' !! l) ↔ live full_state l) ∧
    (∀ l o, heap full_state !! l = Some o → live full_state l →
       ∃ o', heap s' !! l = Some o' ∧ same_payload o o') ∧
    (∀ l, is_Some (heap s' !! l) → is_Some (heap full_state !! l)).
Proof.
  assert (vm_inv full_state) as Hinv by apply reachable_inv, full_state_reachable.
  assert (numObjects (vm full_state) * 2 ≤ INT_MAX) as Hfit
    by (vm_compute; discriminate).
  split; [exact Hinv|]. split; [exact Hfit|].
  exact (gc_marks_sweeps_rescales full_state Hinv Hfit).
Defined.

(** The collection of the cyclic scenario: six objects, four survive, and
    the threshold becomes eight. *)
Example gc_cycle :
  ∃ s', gc cycle_state = Ok s' ∧ numObjects (vm s') = 4 ∧ maxObjects (vm s') = 8 ∧
        dom (heap s') = {[1; 3; 4; 6]}%positive.
Proof. eexists. split; [vm_compute; reflexivity|]. vm_compute. done. Qed.

(** C5.  With at least two entries on the stack [pushPair] succeeds.  It
    allocates as [newObject] does (after a collection exactly when one is
    due, which leaves the state [s0]): the pair is a new object, at an
    address that is not in use in [s0], unmarked, put at the head of the
    registry, and [numObjects] is one more than in [s0]; nothing else in the
    heap changes.  The pair has the top entry (the first one popped) as its
    tail and the entry below it (the second one popped) as its head, both
    allocated objects different from the pair; it replaces these two entries
    on the stack, and the stack is one entry shorter; the entries below are
    untouched.  With fewer than two entries the process ends with the
    message of a stack underflow. *)
Theorem pushPair_pops_two_pushes_pair (s : State) :
  vm_inv s →
  numObjects (vm s) < INT_MAX →
  (numObjects (vm s) = maxObjects (vm s) → numObjects (vm s) * 2 ≤ INT_MAX) →
  ((2 ≤ stackSize (vm s))%nat →
   ∃ s0 s' l hd tl o,
     (if decide (numObjects (vm s) = maxObjects (vm s))
      then gc (printf "Auto gc is ran" s) = Ok s0
      else s0 = s) ∧
     pushPair s = Ok (s', l) ∧
     stack (vm s) !! (stackSize (vm s) - 1)%nat = Some tl ∧
     stack (vm s) !! (stackSize (vm s) - 2)%nat = Some hd ∧
     heap s0 !! l = None ∧
     heap s' = <[l := o]> (heap s0) ∧
     o = mkObject (firstObject (vm s0)) false OBJ_PAIR 0 hd tl ∧
     heap s' !! l = Some o ∧ type o = OBJ_PAIR ∧ head o = hd ∧ tail o = tl ∧
     marked o = false ∧
     (∃ a b, hd = Some a ∧ tl = Some b ∧ a ≠ l ∧ b ≠ l ∧
             is_Some (heap s' !! a) ∧ is_Some (heap s' !! b)) ∧
     firstObject (vm s') = Some l ∧
     (∀ L, reg_list (heap s0) (firstObject (vm s0)) L →
           reg_list (heap s') (firstObject (vm s')) (l :: L)) ∧
     numObjects (vm s') = numObjects (vm s0) + 1 ∧
     maxObjects (vm s') = maxObjects (vm s0) ∧
     out s' = out s0 ∧
     stackSize (vm s') = (stackSize (vm s) - 1)%nat ∧
     stack (vm s') !! (stackSize (vm s) - 2)%nat = Some (Some l) ∧
     take (stackSize (vm s) - 2) (stack (vm s'))
     = take (stackSize (vm s) - 2) (stack (vm s)) ∧
     vm_inv s') ∧
  ((stackSize (vm s) < 2)%nat →
   ∃ sf, pushPair s = Fatal sf ∧ last (out sf) = Some "Stack underflow!").
Proof.
  intros Hinv Hlt Hfit.
  destruct (collect_if_due_spec s Hinv Hfit) as (s0 & E).
  pose proof (collect_if_due_Ok s s0 Hinv E) as Hdue.
  pose proof (due_inv _ _ Hdue) as Hinv0. pose proof (due_count _ _ Hdue) as Hcnt.
  pose proof (due_stack _ _ Hdue) as Hstk. pose proof (due_stackSize _ _ Hdue) as Hsz0.
  pose proof (inv_nonneg s0 Hinv0) as Hpos.
  pose proof (inv_stack_length s Hinv) as Hlen. pose proof (inv_stackSize s Hinv) as Hmax.
  pose proof (malloc_fresh (heap s0)) as Hfresh.
  split.
  - intros Hsz.
    destruct (pushPair_spec s s0 Hinv E) as (hd & tl & Hhd & Htl & Hahd & Hatl & Ep);
      [lia|done|].
    assert (hd ≠ malloc (heap s0)) as Hnhd.
    { intros Hx. rewrite Hx, Hfresh in Hahd. by destruct Hahd. }
    assert (tl ≠ malloc (heap s0)) as Hntl.
    { intros Hx. rewrite Hx, Hfresh in Hatl. by destruct Hatl. }
    exists s0, (pushed_pair (Some hd) (Some tl) s0), (malloc (heap s0)), (Some hd), (Some tl).
    eexists. split_and!; [| exact Ep | exact Htl | exact Hhd | exact Hfresh |
                          reflexivity | reflexivity | ..].
    + apply collect_if_due_cases in E as [[Hne ->]|[Heq E]]; by case_decide.
    + simpl. apply lookup_insert_eq.
    + done.
    + done.
    + done.
    + done.
    + exists hd, tl. simpl. rewrite !lookup_insert_ne by done. done.
    + done.
    + intros L. by apply reg_list_cons_fresh.
    + done.
    + done.
    + done.
    + simpl. lia.
    + simpl. rewrite Hsz0, Hstk. apply list_lookup_insert_eq. lia.
    + simpl. rewrite Hsz0, Hstk. by apply take_insert_ge.
    + apply pushed_pair_inv; [done | lia | lia | |].
      * by rewrite Hsz0, Hstk.
      * by rewrite Hsz0, Hstk.
  - intros Hsz. destruct (stackSize (vm s)) as [|[|n]] eqn:En; [| |lia].
    + eexists. split;
        [apply (pushPair_underflow0 s s0); [done | unfold INT_MIN; lia | congruence]|].
      simpl. by rewrite last_snoc.
    + destruct (vm_inv_stack_lookup s0 0) as (tl & Htl & _); [done|lia|].
      eexists. split;
        [apply (pushPair_underflow1 s s0 (Some tl));
           [done | unfold INT_MIN; lia | congruence | done]|].
      simpl. by rewrite last_snoc.
Qed.

Lemma pushPair_pops_two_pushes_pair_witness :
  vm_inv full_state ∧
  numObjects (vm full_state) < INT_MAX ∧
  (numObjects (vm full_state) = maxObjects (vm full_state) →
   numObjects (vm full_state) * 2 ≤ INT_MAX) ∧
  ((2 ≤ stackSize (vm full_state))%nat →
   ∃ s0 s' l hd tl o,
     (if decide (numObjects (vm full_state) = maxObjects (vm full_state))
      then gc (printf "Auto gc is ran" full_state) = Ok s0
      else s0 = full_state) ∧
     pushPair full_state = Ok (s', l) ∧
     stack (vm full_state) !! (stackSize (vm full_state) - 1)%nat = Some tl ∧
     stack (vm full_state) !! (stackSize (vm full_state) - 2)%nat = Some hd ∧
     heap s0 !! l = None ∧
     heap s' = <[l := o]> (heap s0) ∧
     o = mkObject (firstObject (vm s0)) false OBJ_PAIR 0 hd tl ∧
     heap s' !! l = Some o ∧ type o = OBJ_PAIR ∧ head o = hd ∧ tail o = tl ∧
     marked o = false ∧
     (∃ a b, hd = Some a ∧ tl = Some b ∧ a ≠ l ∧ b ≠ l ∧
             is_Some (heap s' !! a) ∧ is_Some (heap s' !! b)) ∧
     firstObject (vm s') = Some l ∧
     (∀ L, reg_list (heap s0) (firstObject (vm s0)) L →
           reg_list (heap s') (firstObject (vm s')) (l :: L)) ∧
     numObjects (vm s') = numObjects (vm s0) + 1 ∧
     maxObjects (vm s') = maxObjects (vm s0) ∧
     out s' = out s0 ∧
     stackSize (vm s') = (stackSize (vm full_state) - 1)%nat ∧
     stack (vm s') !! (stackSize (vm full_state) - 2)%nat = Some (Some l) ∧
     take (stackSize (vm full_state) - 2) (stack (vm s'))
     = take (stackSize (vm full_state) - 2) (stack (vm full_state)) ∧
     vm_inv s') ∧
  ((stackSize (vm full_state) < 2)%nat →
   ∃ sf, pushPair full_state = Fatal sf ∧ last (out sf) = Some "Stack underflow!").
Proof.
  assert (vm_inv full_state) as Hinv by apply reachable_inv, full_state_reachable.
  assert (numObjects (vm full_state) < INT_MAX) as Hlt by (vm_compute; reflexivity).
  assert (numObjects (vm full_state) = maxObjects (vm full_state) →
          numObjects (vm full_state) * 2 ≤ INT_MAX) as Hfit
    by (intros _; vm_compute; discriminate).
  split; [exact Hinv|]. split; [exact Hlt|]. split; [exact Hfit|].
  exact (pushPair_pops_two_pushes_pair full_state Hinv Hlt Hfit).
Defined.

(** The last [pushPair] of the fifth scenario: the pair of the integers 5 and
    6 ends up on the stack above the two older pairs. *)
Example pushPair_full :
  ∃ s' l, pushPair full_state = Ok (s', l) ∧
          heap s' !! l = Some (mkObject (Some 8%positive) false OBJ_PAIR 0
                                 (Some 7%positive) (Some 8%positive)) ∧
          roots s' = [Some 3%positive; Some 6%positive; Some l] ∧
          numObjects (vm s') = 7.
Proof. do 2 eexists. split; [vm_compute; reflexivity|]. vm_compute. done. Qed.

(** On a stack with one entry the pair is allocated and the entry popped
    before the second [pop] ends the process. *)
Example pushPair_one_entry :
  ∃ s1 sf, pushInt newVM 1 = Ok s1 ∧ pushPair s1 = Fatal sf ∧
           out sf = ["Stack underflow!"] ∧
           numObjects (vm sf) = 2 ∧ stackSize (vm sf) = 0%nat.
Proof.
  do 2 eexists. split; [vm_compute; reflexivity|].
  split; [vm_compute; reflexivity|]. vm_compute. done.
Qed.

(** C6.  When a collection leaves [numObjects] at 0 it sets [maxObjects] to
    0, and no object is left.  The next call of [newObject] then finds the
    two counters equal, prints its notice and collects again before it
    allocates; this collection changes nothing.  The object is created
    afterwards, so that [numObjects] is 1 and [maxObjects] still 0. *)
Theorem empty_heap_threshold_zero_retriggers (s s' : State) :
  vm_inv s → gc s = Ok s' → numObjects (vm s') = 0 →
  maxObjects (vm s') = 0 ∧ heap s' = ∅ ∧ firstObject (vm s') = None ∧
  gc (printf "Auto gc is ran" s') = Ok (printf "Auto gc is ran" s') ∧
  ∀ ty, ∃ s1 l,
    newObject s' ty = Ok (s1, l) ∧
    s1 = allocated ty (printf "Auto gc is ran" s') ∧
    out s1 = out s' ++ ["Auto gc is ran"] ∧
    heap s1 = {[ l := mkObject None false ty 0 None None ]} ∧
    numObjects (vm s1) = 1 ∧ maxObjects (vm s1) = 0.
Proof.
  intros Hinv E H0. pose proof (gc_Ok s s' Hinv E) as Hpost.
  pose proof (gc_inv _ _ Hpost) as Hinv'. pose proof (gc_threshold _ _ Hpost) as Hthr.
  destruct (vm_inv_empty s' Hinv' H0) as [Hheap Hfirst].
  assert (maxObjects (vm s') = 0) as Hmax by lia.
  assert (gc (printf "Auto gc is ran" s') = Ok (printf "Auto gc is ran" s')) as Egc.
  { apply gc_fixed; simpl.
    - by apply vm_inv_printf.
    - intros l [o Ho]. rewrite Hheap, lookup_empty in Ho. done.
    - lia.
    - rewrite H0. unfold INT_MAX. lia. }
  split_and!; try done. intros ty.
  exists (allocated ty (printf "Auto gc is ran" s')), (malloc (heap s')).
  assert (collect_if_due s' = Ok (printf "Auto gc is ran" s')) as Edue.
  { unfold collect_if_due. rewrite H0, Hmax. simpl. exact Egc. }
  split_and!; try done.
  - rewrite (newObject_eq s' ty _ Edue); [done|]. simpl. rewrite H0.
    unfold INT_MIN, INT_MAX. lia.
  - simpl. rewrite Hfirst, Hheap. apply insert_empty.
  - simpl. lia.
Qed.

Lemma empty_heap_threshold_zero_retriggers_witness :
  vm_inv popped_state ∧ gc popped_state = Ok popped_collected ∧
  numObjects (vm popped_collected) = 0 ∧
  maxObjects (vm popped_collected) = 0 ∧ heap popped_collected = ∅ ∧
  firstObject (vm popped_collected) = None ∧
  gc (printf "Auto gc is ran" popped_collected)
  = Ok (printf "Auto gc is ran" popped_collected) ∧
  ∀ ty, ∃ s1 l,
    newObject popped_collected ty = Ok (s1, l) ∧
    s1 = allocated ty (printf "Auto gc is ran" popped_collected) ∧
    out s1 = out popped_collected ++ ["Auto gc is ran"] ∧
    heap s1 = {[ l := mkObject None false ty 0 None None ]} ∧
    numObjects (vm s1) = 1 ∧ maxObjects (vm s1) = 0.
Proof.
  assert (vm_inv popped_state) as Hinv by apply reachable_inv, popped_state_reachable.
  assert (gc popped_state = Ok popped_collected) as E by (vm_compute; reflexivity).
  assert (numObjects (vm popped_collected) = 0) as H0 by (vm_compute; reflexivity).
  split; [exact Hinv|]. split; [exact E|]. split; [exact H0|].
  exact (empty_heap_threshold_zero_retriggers popped_state popped_collected Hinv E H0).
Defined.

(** After that allocation [numObjects] is above [maxObjects]; the next
    allocations find the counters different and do not collect. *)
Example after_empty_collection :
  ∃ s1 s2 s3, pushInt popped_collected 7 = Ok s1 ∧ pushInt s1 8 = Ok s2 ∧
              pushInt s2 9 = Ok s3 ∧
              out s3 = ["Auto gc is ran"] ∧
              numObjects (vm s3) = 3 ∧ maxObjects (vm s3) = 0.
Proof.
  do 3 eexists. split; [vm_compute; reflexivity|]. split; [vm_compute; reflexivity|].
  split; [vm_compute; reflexivity|]. vm_compute. done.
Qed.

(** C7.  In every state the machine can reach, a collection followed at once
    by a second one: the first leaves every surviving object unmarked, and
    the second returns the state it was given.  It frees no object, and
    [numObjects] (like everything else) is as the first collection left
    it. *)
Theorem second_collection_reclaims_nothing (s : State) :
  reachable s → numObjects (vm s) * 2 ≤ INT_MAX →
  ∃ s1 s2,
    gc s = Ok s1 ∧
    (∀ l o, heap s1 !! l = Some o → marked o = false) ∧
    gc s1 = Ok s2 ∧
    heap s2 = heap s1 ∧
    numObjects (vm s2) = numObjects (vm s1) ∧
    s2 = s1.
Proof.
  intros Hs Hfit. pose proof (reachable_inv s Hs) as Hinv.
  destruct (gc_twice s Hinv Hfit) as (s1 & E1 & Hpost & E2).
  exists s1, s1. split_and!; try done.
  apply (inv_unmarked s1), (gc_inv s s1 Hpost).
Qed.

Lemma second_collection_reclaims_nothing_witness :
  reachable cycle_state ∧ numObjects (vm cycle_state) * 2 ≤ INT_MAX ∧
  ∃ s1 s2,
    gc cycle_state = Ok s1 ∧
    (∀ l o, heap s1 !! l = Some o → marked o = false) ∧
    gc s1 = Ok s2 ∧
    heap s2 = heap s1 ∧
    numObjects (vm s2) = numObjects (vm s1) ∧
    s2 = s1.
Proof.
  assert (numObjects (vm cycle_state) * 2 ≤ INT_MAX) as Hfit
    by (vm_compute; discriminate).
  split; [exact cycle_state_reachable|]. split; [exact Hfit|].
  exact (second_collection_reclaims_nothing cycle_state cycle_state_reachable Hfit).
Defined.

(** The fourth scenario of [main.c], collected twice. *)
Example gc_cycle_twice :
  ∃ s1, gc cycle_state = Ok s1 ∧ gc s1 = Ok s1 ∧ numObjects (vm s1) = 4.
Proof.
  eexists. split; [vm_compute; reflexivity|]. split; [vm_compute; reflexivity|].
  vm_compute. done.
Qed.

(** C8.  In every state the machine can reach, that is, between any two
    operations and so outside a collection, every allocated object has its
    mark bit clear.  In particular [newObject] called in such a state
    returns a state in which the new object and all others are unmarked, and
    a collection started in such a state ends with all remaining objects
    unmarked. *)
Theorem mark_bits_clear_outside_collection (s : State) :
  reachable s →
  (∀ l o, heap s !! l = Some o → marked o = false) ∧
  (∀ ty s1 l, newObject s ty = Ok (s1, l) →
     marked <$> heap s1 !! l = Some false ∧
     ∀ x o, heap s1 !! x = Some o → marked o = false) ∧
  (∀ s', gc s = Ok s' → ∀ l o, heap s' !! l = Some o → marked o = false).
Proof.
  intros Hs. pose proof (reachable_inv s Hs) as Hinv. split_and!.
  - apply (inv_unmarked s Hinv).
  - intros ty s1 l (s0 & E & _ & -> & ->)%newObject_Ok.
    pose proof (due_inv _ _ (collect_if_due_Ok s s0 Hinv E)) as Hinv0.
    simpl. rewrite lookup_insert_eq. split; [done|]. intros x o.
    destruct (decide (x = malloc (heap s0))) as [->|Hne].
    + rewrite lookup_insert_eq. by intros [= <-].
    + rewrite lookup_insert_ne by done. apply (inv_unmarked s0 Hinv0).
  - intros s' E. apply (inv_unmarked s'), (gc_inv s s'), gc_Ok; done.
Qed.

Lemma mark_bits_clear_outside_collection_witness :
  reachable full_state ∧
  (∀ l o, heap full_state !! l = Some o → marked o = false) ∧
  (∀ ty s1 l, newObject full_state ty = Ok (s1, l) →
     marked <$> heap s1 !! l = Some false ∧
     ∀ x o, heap s1 !! x = Some o → marked o = false) ∧
  (∀ s', gc full_state = Ok s' → ∀ l o, heap s' !! l = Some o → marked o = false).
Proof.
  split; [exact full_state_reachable|].
  exact (mark_bits_clear_outside_collection full_state full_state_reachable).
Defined.

(** C9.  In a state that satisfies the invariant, [push] ends the process
    exactly when the stack holds [STACK_MAX] entries and [pop] exactly when
    it is empty; each prints its message first, and the state at exit is the
    state of the call with that line added to the output.  [mark],
    [markAll], [sweep], [gc], [freeVM] and [newObject] never end the process, and with
    counters in the range of [int] they return normally.  [pushInt] can end
    only with the overflow message, on a full stack, and [pushPair] only
    with the underflow message, on fewer than two entries; the object they
    allocated before is still counted at exit.  Nothing runs after a fatal
    outcome. *)
Theorem only_stack_overflow_and_underflow_are_fatal (s : State) :
  vm_inv s →
  (∀ p, push s p =
        if decide (stackSize (vm s) < STACK_MAX)%nat
        then Ok (with_vm (mkVM (numObjects (vm s)) (maxObjects (vm s)) (firstObject (vm s))
                               (<[stackSize (vm s) := p]> (stack (vm s)))
                               (S (stackSize (vm s)))) s)
        else Fatal (printf "Stack overflow!" s)) ∧
  (if decide (0 < stackSize (vm s))%nat
   then ∃ s' p, pop s = Ok (s', p)
   else pop s = Fatal (printf "Stack underflow!" s)) ∧
  (∀ p, no_fatal (mark (heap s) p)) ∧
  no_fatal (markAll s) ∧ no_fatal (sweep s) ∧ no_fatal (gc s) ∧ no_fatal (freeVM s) ∧
  (∀ ty, no_fatal (newObject s ty)) ∧
  (numObjects (vm s) * 2 ≤ INT_MAX → ∃ s', gc s = Ok s') ∧
  (numObjects (vm s) < INT_MAX →
   (numObjects (vm s) = maxObjects (vm s) → numObjects (vm s) * 2 ≤ INT_MAX) →
   (∀ ty, ∃ s' l, newObject s ty = Ok (s', l)) ∧
   (∀ v, (stackSize (vm s) < STACK_MAX)%nat → ∃ s', pushInt s v = Ok s') ∧
   ((2 ≤ stackSize (vm s))%nat → ∃ s' l, pushPair s = Ok (s', l))) ∧
  (∀ v sf, pushInt s v = Fatal sf →
     stackSize (vm s) = STACK_MAX ∧ last (out sf) = Some "Stack overflow!" ∧
     ∃ s0, collect_if_due s = Ok s0 ∧ numObjects (vm sf) = numObjects (vm s0) + 1) ∧
  (∀ sf, pushPair s = Fatal sf →
     (stackSize (vm s) < 2)%nat ∧ last (out sf) = Some "Stack underflow!" ∧
     ∃ s0, collect_if_due s = Ok s0 ∧ numObjects (vm sf) = numObjects (vm s0) + 1) ∧
  (∀ A B (k : A → result B) sf, bind (Fatal sf) k = Fatal sf).
Proof.
  intros Hinv. split_and!.
  - apply push_cases.
  - case_decide as Hsz.
    + destruct (pop_nonempty s Hinv Hsz) as (l & _ & _ & E). eauto.
    + apply pop_empty. lia.
  - intros p. apply mark_fuel_no_fatal.
  - apply markAll_no_fatal.
  - apply sweep_loop_no_fatal.
  - apply gc_no_fatal.
  - apply gc_no_fatal.
  - apply newObject_no_fatal.
  - intros Hfit. destruct (gc_spec s Hinv Hfit) as (s' & E & _). eauto.
  - intros Hlt Hfit. destruct (collect_if_due_spec s Hinv Hfit) as (s0 & E).
    pose proof (collect_if_due_Ok s s0 Hinv E) as Hdue.
    pose proof (inv_nonneg s0 (due_inv _ _ Hdue)) as Hpos.
    pose proof (due_count _ _ Hdue) as Hcnt.
    assert (INT_MIN ≤ numObjects (vm s0) + 1 ≤ INT_MAX) as Hr by (unfold INT_MIN; lia).
    split_and!.
    + intros ty. rewrite (newObject_eq s ty s0 E Hr). eauto.
    + intros v Hsz. rewrite (pushInt_eq s v s0 E Hr); [eauto|].
      by rewrite (due_stackSize _ _ Hdue).
    + intros Hsz.
      destruct (pushPair_spec s s0 Hinv E) as (hd & tl & _ & _ & _ & _ & Ep); [lia|done|].
      eauto.
  - intros v sf (s0 & E & Hsz & ->)%pushInt_Fatal.
    pose proof (collect_if_due_Ok s s0 Hinv E) as Hdue.
    pose proof (inv_stackSize s Hinv). rewrite (due_stackSize _ _ Hdue) in Hsz.
    split_and!; [lia | by simpl; rewrite last_snoc | by exists s0].
  - intros sf (s0 & E & Hsz & Hlast & Hnum & _)%pushPair_Fatal; [|done].
    split_and!; [done..|by exists s0].
  - done.
Qed.

Lemma only_stack_overflow_and_underflow_are_fatal_witness :
  vm_inv newVM ∧
  (∀ p, push newVM p =
        if decide (stackSize (vm newVM) < STACK_MAX)%nat
        then Ok (with_vm (mkVM (numObjects (vm newVM)) (maxObjects (vm newVM))
                               (firstObject (vm newVM))
                               (<[stackSize (vm newVM) := p]> (stack (vm newVM)))
                               (S (stackSize (vm newVM)))) newVM)
        else Fatal (printf "Stack overflow!" newVM)) ∧
  (if decide (0 < stackSize (vm newVM))%nat
   then ∃ s' p, pop newVM = Ok (s', p)
   else pop newVM = Fatal (printf "Stack underflow!" newVM)) ∧
  (∀ p, no_fatal (mark (heap newVM) p)) ∧
  no_fatal (markAll newVM) ∧ no_fatal (sweep newVM) ∧ no_fatal (gc newVM) ∧
  no_fatal (freeVM newVM) ∧
  (∀ ty, no_fatal (newObject newVM ty)) ∧
  (numObjects (vm newVM) * 2 ≤ INT_MAX → ∃ s', gc newVM = Ok s') ∧
  (numObjects (vm newVM) < INT_MAX →
   (numObjects (vm newVM) = maxObjects (vm newVM) → numObjects (vm newVM) * 2 ≤ INT_MAX) →
   (∀ ty, ∃ s' l, newObject newVM ty = Ok (s', l)) ∧
   (∀ v, (stackSize (vm newVM) < STACK_MAX)%nat → ∃ s', pushInt newVM v = Ok s') ∧
   ((2 ≤ stackSize (vm newVM))%nat → ∃ s' l, pushPair newVM = Ok (s', l))) ∧
  (∀ v sf, pushInt newVM v = Fatal sf →
     stackSize (vm newVM) = STACK_MAX ∧ last (out sf) = Some "Stack overflow!" ∧
     ∃ s0, collect_if_due newVM = Ok s0 ∧ numObjects (vm sf) = numObjects (vm s0) + 1) ∧
  (∀ sf, pushPair newVM = Fatal sf →
     (stackSize (vm newVM) < 2)%nat ∧ last (out sf) = Some "Stack underflow!" ∧
     ∃ s0, collect_if_due newVM = Ok s0 ∧ numObjects (vm sf) = numObjects (vm s0) + 1) ∧
  (∀ A B (k : A → result B) sf, bind (Fatal sf) k = Fatal sf).
Proof.
  split; [exact newVM_inv|].
  exact (only_stack_overflow_and_underflow_are_fatal newVM newVM_inv).
Defined.

Example pushInt_overflow_run :
  stackSize (vm filled_state) = STACK_MAX ∧
  ∃ sf, pushInt filled_state 1 = Fatal sf ∧ last (out sf) = Some "Stack overflow!" ∧
        numObjects (vm sf) = numObjects (vm filled_state) + 1.
Proof.
  split; [vm_compute; reflexivity|]. eexists. split; [vm_compute; reflexivity|].
  vm_compute. done.
Qed.

Example pop_underflow_run : pop newVM = Fatal (printf "Stack underflow!" newVM).
Proof. reflexivity. Qed.

(** C10.  [pushPair] calls [newObject] before it pops.  When that call finds
    a collection due, the collection runs on the stack as [pushPair] found
    it, with both operands among the roots; both are therefore still
    allocated, with their payload, when the collection is over, the new pair
    is placed at an address different from theirs, and its head and tail
    refer to them in the final state, which satisfies the invariant (no
    pointer to freed storage). *)
Theorem pushPair_operands_survive_own_collection (s : State) :
  vm_inv s → (2 ≤ stackSize (vm s))%nat →
  numObjects (vm s) = maxObjects (vm s) → numObjects (vm s) * 2 ≤ INT_MAX →
  ∃ sg s' l hd tl ohd otl,
    stack (vm s) !! (stackSize (vm s) - 2)%nat = Some (Some hd) ∧
    stack (vm s) !! (stackSize (vm s) - 1)%nat = Some (Some tl) ∧
    heap s !! hd = Some ohd ∧ heap s !! tl = Some otl ∧
    gc (printf "Auto gc is ran" s) = Ok sg ∧
    Some hd ∈ roots (printf "Auto gc is ran" s) ∧
    Some tl ∈ roots (printf "Auto gc is ran" s) ∧
    (∃ o, heap sg !! hd = Some o ∧ same_payload ohd o) ∧
    (∃ o, heap sg !! tl = Some o ∧ same_payload otl o) ∧
    pushPair s = Ok (s', l) ∧
    l ≠ hd ∧ l ≠ tl ∧
    heap s' !! l = Some (mkObject (firstObject (vm sg)) false OBJ_PAIR 0 (Some hd) (Some tl)) ∧
    heap s' !! hd = heap sg !! hd ∧ heap s' !! tl = heap sg !! tl ∧
    vm_inv s'.
Proof.
  intros Hinv Hsz Heq Hfit.
  destruct (collect_if_due_spec s Hinv (λ _, Hfit)) as (sg & E).
  pose proof (collect_if_due_Ok s sg Hinv E) as Hdue.
  pose proof (due_inv _ _ Hdue) as Hinvg. pose proof (due_count _ _ Hdue) as Hcnt.
  pose proof (inv_range s Hinv) as Hrange. pose proof (inv_nonneg s Hinv) as Hpos.
  assert (numObjects (vm sg) + 1 ≤ INT_MAX) as Hfit1 by (unfold INT_MAX in *; lia).
  destruct (pushPair_spec s sg Hinv E Hfit1 Hsz) as (hd & tl & Hhd & Htl & Hahd & Hatl & Ep).
  assert (Some hd ∈ roots s) as Hrhd.
  { apply list_elem_of_lookup. exists (stackSize (vm s) - 2)%nat. unfold roots.
    rewrite lookup_take_lt by lia. done. }
  assert (Some tl ∈ roots s) as Hrtl.
  { apply list_elem_of_lookup. exists (stackSize (vm s) - 1)%nat. unfold roots.
    rewrite lookup_take_lt by lia. done. }
  destruct (roots_elem s hd Hrhd Hinv) as [ohd Hohd].
  destruct (roots_elem s tl Hrtl Hinv) as [otl Hotl].
  pose proof (malloc_fresh (heap sg)) as Hfresh.
  assert (malloc (heap sg) ≠ hd) as Hnhd.
  { intros Hx. rewrite Hx in Hfresh. rewrite Hfresh in Hahd. by destruct Hahd. }
  assert (malloc (heap sg) ≠ tl) as Hntl.
  { intros Hx. rewrite Hx in Hfresh. rewrite Hfresh in Hatl. by destruct Hatl. }
  exists sg, (pushed_pair (Some hd) (Some tl) sg), (malloc (heap sg)), hd, tl, ohd, otl.
  split_and!; try done.
  - unfold collect_if_due in E. by rewrite Heq, Z.eqb_refl in E.
  - apply (due_live _ _ Hdue); [done | by apply root_live].
  - apply (due_live _ _ Hdue); [done | by apply root_live].
  - simpl. apply lookup_insert_eq.
  - simpl. by rewrite lookup_insert_ne.
  - simpl. by rewrite lookup_insert_ne.
  - apply pushed_pair_inv; try done.
    + by rewrite (due_stackSize _ _ Hdue).
    + by rewrite (due_stackSize _ _ Hdue), (due_stack _ _ Hdue).
    + by rewrite (due_stackSize _ _ Hdue), (due_stack _ _ Hdue).
Qed.

Lemma pushPair_operands_survive_own_collection_witness :
  vm_inv full_state ∧ (2 ≤ stackSize (vm full_state))%nat ∧
  numObjects (vm full_state) = maxObjects (vm full_state) ∧
  numObjects (vm full_state) * 2 ≤ INT_MAX ∧
  ∃ sg s' l hd tl ohd otl,
    stack (vm full_state) !! (stackSize (vm full_state) - 2)%nat = Some (Some hd) ∧
    stack (vm full_state) !! (stackSize (vm full_state) - 1)%nat = Some (Some tl) ∧
    heap full_state !! hd = Some ohd ∧ heap full_state !! tl = Some otl ∧
    gc (printf "Auto gc is ran" full_state) = Ok sg ∧
    Some hd ∈ roots (printf "Auto gc is ran" full_state) ∧
    Some tl ∈ roots (printf "Auto gc is ran" full_state) ∧
    (∃ o, heap sg !! hd = Some o ∧ same_payload ohd o) ∧
    (∃ o, heap sg !! tl = Some o ∧ same_payload otl o) ∧
    pushPair full_state = Ok (s', l) ∧
    l ≠ hd ∧ l ≠ tl ∧
    heap s' !! l = Some (mkObject (firstObject (vm sg)) false OBJ_PAIR 0 (Some hd) (Some tl)) ∧
    heap s' !! hd = heap sg !! hd ∧ heap s' !! tl = heap sg !! tl ∧
    vm_inv s'.
Proof.
  assert (vm_inv full_state) as Hinv by apply reachable_inv, full_state_reachable.
  assert (2 ≤ stackSize (vm full_state))%nat as Hsz by (vm_compute; lia).
  assert (numObjects (vm full_state) = maxObjects (vm full_state)) as Heq
    by (vm_compute; reflexivity).
  assert (numObjects (vm full_state) * 2 ≤ INT_MAX) as Hfit
    by (vm_compute; discriminate).
  split; [exact Hinv|]. split; [exact Hsz|]. split; [exact Heq|]. split; [exact Hfit|].
  exact (pushPair_operands_survive_own_collection full_state Hinv Hsz Heq Hfit).
Defined.

(** * Further properties

    ** The registry and the counter *)

Lemma registry_enumerates s L :
  reg_list (heap s) (firstObject (vm s)) L →
  (∀ l, is_Some (heap s !! l) → l ∈ L) →
  NoDup L ∧ (∀ l, l ∈ L ↔ is_Some (heap s !! l)) ∧ length L = size (heap s).
Proof.
  intros Hreg Hall. pose proof (reg_list_NoDup _ _ _ Hreg) as Hnd.
  assert (∀ l, l ∈ L ↔ is_Some (heap s !! l)) as Hiff.
  { intros l. split; [by eapply reg_list_alloc | apply Hall]. }
  split_and!; try done.
  rewrite <- (size_dom (D := gset loc) (heap s)).
  rewrite <- (size_list_to_set (C := gset loc) L) by done.
  f_equal. apply set_eq. intros l. rewrite elem_of_list_to_set, elem_of_dom. apply Hiff.
Qed.

(** X1.  In every state the machine can reach, [numObjects] is the number of
    objects that are allocated, and the registry list starting at
    [firstObject] visits each allocated object exactly once and nothing
    else. *)
Theorem numObjects_counts_allocated_objects (s : State) :
  reachable s →
  numObjects (vm s) = Z.of_nat (size (heap s)) ∧
  ∃ L, reg_list (heap s) (firstObject (vm s)) L ∧ NoDup L ∧
       ∀ l, l ∈ L ↔ is_Some (heap s !! l).
Proof.
  intros Hs. pose proof (reachable_inv s Hs) as [(L & Hreg & Hall & Hnum) _ _ _ _ _ _].
  destruct (registry_enumerates s L Hreg Hall) as (Hnd & Hiff & Hlen).
  split; [by rewrite Hnum, Hlen|]. eauto.
Qed.

Lemma numObjects_counts_allocated_objects_witness :
  reachable full_state ∧
  numObjects (vm full_state) = Z.of_nat (size (heap full_state)) ∧
  ∃ L, reg_list (heap full_state) (firstObject (vm full_state)) L ∧ NoDup L ∧
       ∀ l, l ∈ L ↔ is_Some (heap full_state !! l).
Proof.
  split; [exact full_state_reachable|].
  exact (numObjects_counts_allocated_objects full_state full_state_reachable).
Defined.

(** X2.  In every state the machine can reach there is no pointer to freed
    storage: each of the [stackSize] entries in use on the stack, the head
    and the tail of each allocated pair, and everything that can be reached
    from the stack is an allocated object; the stack never holds more than
    [STACK_MAX] entries. *)
Theorem no_dangling_pointers (s : State) :
  reachable s →
  (stackSize (vm s) ≤ STACK_MAX)%nat ∧
  (∀ i, (i < stackSize (vm s))%nat →
        ∃ l, stack (vm s) !! i = Some (Some l) ∧ is_Some (heap s !! l)) ∧
  (∀ l o, heap s !! l = Some o → type o = OBJ_PAIR →
        ∃ a b, head o = Some a ∧ tail o = Some b ∧
               is_Some (heap s !! a) ∧ is_Some (heap s !! b)) ∧
  (∀ x, live s x → is_Some (heap s !! x)).
Proof.
  intros Hs. pose proof (reachable_inv s Hs) as Hinv. split_and!.
  - apply (inv_stackSize s Hinv).
  - intros i Hi. by apply vm_inv_stack_lookup.
  - intros l o Ho Hty.
    destruct (inv_wf s Hinv l o Ho Hty) as [(a & Ha & Hsa) (b & Hb & Hsb)]. eauto 10.
  - intros x. by apply live_alloc.
Qed.

Lemma no_dangling_pointers_witness :
  reachable cycle_state ∧
  (stackSize (vm cycle_state) ≤ STACK_MAX)%nat ∧
  (∀ i, (i < stackSize (vm cycle_state))%nat →
        ∃ l, stack (vm cycle_state) !! i = Some (Some l) ∧ is_Some (heap cycle_state !! l)) ∧
  (∀ l o, heap cycle_state !! l = Some o → type o = OBJ_PAIR →
        ∃ a b, head o = Some a ∧ tail o = Some b ∧
               is_Some (heap cycle_state !! a) ∧ is_Some (heap cycle_state !! b)) ∧
  (∀ x, live cycle_state x → is_Some (heap cycle_state !! x)).
Proof.
  split; [exact cycle_state_reachable|].
  exact (no_dangling_pointers cycle_state cycle_state_reachable).
Defined.

(** ** [push] and [pop] *)

(** X3.  [pop] followed by [push] of the popped value gives back the state
    [pop] was called in: [pop] leaves the slot as it is, and [push] writes
    the same value into it. *)
Theorem pop_then_push_restores (s s' : State) (p : ptr) :
  (stackSize (vm s) ≤ STACK_MAX)%nat →
  pop s = Ok (s', p) →
  push s' p = Ok s.
Proof.
  intros Hmax (Hsz & Hp & ->)%pop_Ok. rewrite push_cases. simpl.
  rewrite decide_True by lia. f_equal. destruct s as [[n m f st sz] h o]. simpl in *.
  unfold with_vm. simpl. rewrite list_insert_id by done.
  by replace (S (sz - 1)) with sz by lia.
Qed.

Lemma pop_then_push_restores_witness :
  (stackSize (vm cycle_state) ≤ STACK_MAX)%nat ∧
  pop cycle_state = Ok (set_stackSize 1 cycle_state, Some 6%positive) ∧
  push (set_stackSize 1 cycle_state) (Some 6%positive) = Ok cycle_state.
Proof.
  assert (stackSize (vm cycle_state) ≤ STACK_MAX)%nat as Hmax by (vm_compute; lia).
  assert (pop cycle_state = Ok (set_stackSize 1 cycle_state, Some 6%positive)) as E
    by (vm_compute; reflexivity).
  split; [exact Hmax|]. split; [exact E|].
  exact (pop_then_push_restores cycle_state _ _ Hmax E).
Defined.

(** X4.  [push] followed by [pop] returns the value pushed and the stack
    size of before; the entries below are untouched, and neither call
    touches the objects, the counters or the output. *)
Theorem push_then_pop_returns (s s1 : State) (p : ptr) :
  (stackSize (vm s) < length (stack (vm s)))%nat →
  push s p = Ok s1 →
  ∃ s2, pop s1 = Ok (s2, p) ∧
        stackSize (vm s2) = stackSize (vm s) ∧
        roots s2 = roots s ∧
        heap s2 = heap s ∧ out s2 = out s ∧
        numObjects (vm s2) = numObjects (vm s) ∧
        maxObjects (vm s2) = maxObjects (vm s) ∧
        firstObject (vm s2) = firstObject (vm s).
Proof.
  intros Hlen (Hsz & ->)%push_Ok. eexists. split.
  - unfold pop, assert. simpl. rewrite list_lookup_insert_eq by done. done.
  - simpl. split_and!; try done. unfold roots. simpl. by rewrite take_insert_ge.
Qed.

Lemma push_then_pop_returns_witness :
  (stackSize (vm cycle_state) < length (stack (vm cycle_state)))%nat ∧
  push cycle_state (Some 1%positive)
  = Ok (unwrap newVM (push cycle_state (Some 1%positive))) ∧
  ∃ s2, pop (unwrap newVM (push cycle_state (Some 1%positive))) = Ok (s2, Some 1%positive) ∧
        stackSize (vm s2) = stackSize (vm cycle_state) ∧
        roots s2 = roots cycle_state ∧
        heap s2 = heap cycle_state ∧ out s2 = out cycle_state ∧
        numObjects (vm s2) = numObjects (vm cycle_state) ∧
        maxObjects (vm s2) = maxObjects (vm cycle_state) ∧
        firstObject (vm s2) = firstObject (vm cycle_state).
Proof.
  assert (stackSize (vm cycle_state) < length (stack (vm cycle_state)))%nat as Hlen
    by (vm_compute; lia).
  assert (push cycle_state (Some 1%positive)
          = Ok (unwrap newVM (push cycle_state (Some 1%positive)))) as E
    by (vm_compute; reflexivity).
  split; [exact Hlen|]. split; [exact E|].
  exact (push_then_pop_returns cycle_state _ (Some 1%positive) Hlen E).
Defined.

(** ** [pushInt] *)

(** X5.  On a stack that is not full [pushInt] succeeds.  It allocates as
    [newObject] does (after a collection exactly when one is due), stores
    the value in the new integer object, and pushes it: the stack is one
    entry longer, its new top is the new object, the entries below are as
    they were, and the invariant of the machine holds again. *)
Theorem pushInt_allocates_and_pushes (s : State) (v : Z) :
  vm_inv s →
  numObjects (vm s) < INT_MAX →
  (numObjects (vm s) = maxObjects (vm s) → numObjects (vm s) * 2 ≤ INT_MAX) →
  (stackSize (vm s) < STACK_MAX)%nat →
  ∃ s0 s' l,
    (if decide (numObjects (vm s) = maxObjects (vm s))
     then gc (printf "Auto gc is ran" s) = Ok s0
     else s0 = s) ∧
    pushInt s v = Ok s' ∧
    heap s0 !! l = None ∧
    heap s' = <[l := mkObject (firstObject (vm s0)) false OBJ_INT v None None]> (heap s0) ∧
    firstObject (vm s') = Some l ∧
    numObjects (vm s') = numObjects (vm s0) + 1 ∧
    stackSize (vm s') = S (stackSize (vm s)) ∧
    stack (vm s') !! stackSize (vm s) = Some (Some l) ∧
    take (stackSize (vm s)) (stack (vm s')) = take (stackSize (vm s)) (stack (vm s)) ∧
    out s' = out s0 ∧
    vm_inv s'.
Proof.
  intros Hinv Hlt Hfit Hsz.
  destruct (collect_if_due_spec s Hinv Hfit) as (s0 & E).
  pose proof (collect_if_due_Ok s s0 Hinv E) as Hdue.
  pose proof (due_inv _ _ Hdue) as Hinv0. pose proof (inv_nonneg s0 Hinv0) as Hpos.
  pose proof (due_count _ _ Hdue) as Hcnt.
  pose proof (due_stack _ _ Hdue) as Hstk. pose proof (due_stackSize _ _ Hdue) as Hsz0.
  pose proof (inv_stack_length s Hinv) as Hlen.
  assert (INT_MIN ≤ numObjects (vm s0) + 1 ≤ INT_MAX) as Hr by (unfold INT_MIN; lia).
  exists s0, (pushed_int v s0), (malloc (heap s0)). split_and!; try done.
  - apply collect_if_due_cases in E as [[Hne ->]|[Heq E]]; by case_decide.
  - apply pushInt_eq; [done..|]. by rewrite Hsz0.
  - apply malloc_fresh.
  - simpl. by rewrite Hsz0.
  - simpl. rewrite Hsz0, Hstk. apply list_lookup_insert_eq. lia.
  - simpl. rewrite Hsz0, Hstk. by apply take_insert_ge.
  - apply pushed_int_inv; [done | lia | by rewrite Hsz0].
Qed.

Lemma pushInt_allocates_and_pushes_witness :
  vm_inv full_state ∧
  numObjects (vm full_state) < INT_MAX ∧
  (numObjects (vm full_state) = maxObjects (vm full_state) →
   numObjects (vm full_state) * 2 ≤ INT_MAX) ∧
  (stackSize (vm full_state) < STACK_MAX)%nat ∧
  ∃ s0 s' l,
    (if decide (numObjects (vm full_state) = maxObjects (vm full_state))
     then gc (printf "Auto gc is ran" full_state) = Ok s0
     else s0 = full_state) ∧
    pushInt full_state 9 = Ok s' ∧
    heap s0 !! l = None ∧
    heap s' = <[l := mkObject (firstObject (vm s0)) false OBJ_INT 9 None None]> (heap s0) ∧
    firstObject (vm s') = Some l ∧
    numObjects (vm s') = numObjects (vm s0) + 1 ∧
    stackSize (vm s') = S (stackSize (vm full_state)) ∧
    stack (vm s') !! stackSize (vm full_state) = Some (Some l) ∧
    take (stackSize (vm full_state)) (stack (vm s'))
    = take (stackSize (vm full_state)) (stack (vm full_state)) ∧
    out s' = out s0 ∧
    vm_inv s'.
Proof.
  assert (vm_inv full_state) as Hinv by apply reachable_inv, full_state_reachable.
  assert (numObjects (vm full_state) < INT_MAX) as Hlt by (vm_compute; reflexivity).
  assert (numObjects (vm full_state) = maxObjects (vm full_state) →
          numObjects (vm full_state) * 2 ≤ INT_MAX) as Hfit
    by (intros _; vm_compute; discriminate).
  assert (stackSize (vm full_state) < STACK_MAX)%nat as Hsz by (vm_compute; lia).
  split; [exact Hinv|]. split; [exact Hlt|]. split; [exact Hfit|]. split; [exact Hsz|].
  exact (pushInt_allocates_and_pushes full_state 9 Hinv Hlt Hfit Hsz).
Defined.

(** ** [freeVM] *)

Lemma vm_inv_set_stackSize_0 s : vm_inv s → vm_inv (set_stackSize 0 s).
Proof.
  intros [Hreg Hu Hwf Hr Hlen Hmax Hrange]. split; try done; simpl.
  unfold STACK_MAX. lia.
Qed.

Lemma vm_inv_no_objects s :
  vm_inv s → (∀ l, heap s !! l = None) → heap s = ∅ ∧ numObjects (vm s) = 0.
Proof.
  intros [(L & Hreg & Hall & Hnum) _ _ _ _ _ _] Hnone. split.
  - apply map_empty. done.
  - destruct L as [|l L]; [done|]. destruct Hreg as (_ & o & Ho & _).
    by rewrite Hnone in Ho.
Qed.

(** A collection with an empty stack leaves nothing. *)
Lemma gc_empty_stack s :
  vm_inv s → stackSize (vm s) = 0%nat →
  ∃ s', gc s = Ok s' ∧ gc_post s s' ∧ heap s' = ∅ ∧ numObjects (vm s') = 0.
Proof.
  intros Hinv Hsz.
  destruct (gc_phases s Hinv) as (s1 & s2 & _ & _ & _ & E & _ & Hpost).
  assert (∀ l, heap s2 !! l = None) as Hnone.
  { intros l. destruct (heap s2 !! l) as [o|] eqn:Ho; [|done].
    assert (live s l) as (r & Hr & _) by (apply (gc_alloc _ _ Hpost); simpl; eauto).
    unfold roots in Hr. rewrite Hsz in Hr. by apply elem_of_nil in Hr. }
  destruct (vm_inv_no_objects _ (gc_inv _ _ Hpost) Hnone) as [Hheap Hnum].
  simpl in Hheap, Hnum. eexists. split_and!; [|exact Hpost|done..].
  rewrite E, Hnum. done.
Qed.

(** X6.  [freeVM] reclaims every object, whatever is on the stack and however
    the objects refer to each other: after its collection no object is
    allocated, the registry is empty and both counters are 0.  It prints
    nothing and cannot fail. *)
Theorem freeVM_reclaims_everything (s : State) :
  vm_inv s →
  ∃ s', freeVM s = Ok s' ∧
        heap s' = ∅ ∧ firstObject (vm s') = None ∧
        numObjects (vm s') = 0 ∧ maxObjects (vm s') = 0 ∧
        stackSize (vm s') = 0%nat ∧ out s' = out s.
Proof.
  intros Hinv.
  destruct (gc_empty_stack (set_stackSize 0 s)) as (s' & E & Hpost & Hheap & Hnum);
    [by apply vm_inv_set_stackSize_0 | done |].
  exists s'. pose proof (gc_threshold _ _ Hpost) as Hthr.
  destruct (vm_inv_empty s' (gc_inv _ _ Hpost) Hnum) as [_ Hfirst].
  split_and!; try done.
  - lia.
  - apply (gc_stackSize _ _ Hpost).
  - apply (gc_out _ _ Hpost).
Qed.

Lemma freeVM_reclaims_everything_witness :
  vm_inv cycle_state ∧
  ∃ s', freeVM cycle_state = Ok s' ∧
        heap s' = ∅ ∧ firstObject (vm s') = None ∧
        numObjects (vm s') = 0 ∧ maxObjects (vm s') = 0 ∧
        stackSize (vm s') = 0%nat ∧ out s' = out cycle_state.
Proof.
  assert (vm_inv cycle_state) as Hinv by apply reachable_inv, cycle_state_reachable.
  split; [exact Hinv|]. exact (freeVM_reclaims_everything cycle_state Hinv).
Defined.

(** ** Collections that find everything live *)

Lemma markAll_set_maxObjects m s :
  markAll (set_maxObjects m s) = (let* s1 := markAll s in Ok (set_maxObjects m s1)).
Proof. unfold markAll. simpl. by destruct (mark_roots _ _). Qed.

Lemma sweep_loop_set_maxObjects m n : ∀ s object,
  sweep_loop n (set_maxObjects m s) object
  = (let* s' := sweep_loop n s object in Ok (set_maxObjects m s')).
Proof.
  induction n as [|n IH]; intros s object; [done|]. simpl.
  assert (read_link (set_maxObjects m s) object = read_link s object) as ->
    by by destruct object.
  destruct (read_link s object) as [[l|]| | |]; simpl; try done.
  destruct (heap s !! l) as [o|]; [|done].
  destruct (marked o); simpl.
  - exact (IH (with_heap (<[l := set_marked false o]> (heap s)) s) (LNext l)).
  - assert (numObjects (vm (write_link (set_maxObjects m s) object (next o)))
            = numObjects (vm (write_link s object (next o)))) as -> by by destruct object.
    destruct (arith _) as [k| | |]; simpl; try done.
    pose proof (IH (set_numObjects k
                      (with_heap (delete l (heap (write_link s object (next o))))
                         (write_link s object (next o)))) object) as IH'.
    by destruct object.
Qed.

(** The outcome of a collection does not depend on the threshold it finds. *)
Lemma gc_set_maxObjects m s : gc (set_maxObjects m s) = gc s.
Proof.
  unfold gc. rewrite markAll_set_maxObjects.
  destruct (markAll s) as [s1| | |]; simpl; try done.
  unfold sweep. change (heap (set_maxObjects m s1)) with (heap s1).
  rewrite sweep_loop_set_maxObjects.
  by destruct (sweep_loop _ s1 LFirst) as [s2| | |].
Qed.

Lemma vm_inv_set_maxObjects m s : vm_inv s → vm_inv (set_maxObjects m s).
Proof. intros []. by split. Qed.

Lemma gc_all_live s :
  vm_inv s → all_live s → numObjects (vm s) * 2 ≤ INT_MAX →
  gc s = Ok (set_maxObjects (numObjects (vm s) * 2) s).
Proof.
  intros Hinv Hlive Hfit. rewrite <- (gc_set_maxObjects (numObjects (vm s) * 2) s).
  apply gc_fixed; try done. by apply vm_inv_set_maxObjects.
Qed.

Lemma edge_insert_fresh h l o a b :
  h !! l = None → edge h a b → edge (<[l := o]> h) a b.
Proof.
  intros Hl (oa & Ha & Hty & Hc). exists oa. split; [|done].
  rewrite lookup_insert_ne; [done|]. intros ->. congruence.
Qed.

Lemma reach_insert_fresh h l o a b :
  h !! l = None → reach h a b → reach (<[l := o]> h) a b.
Proof.
  intros Hl. induction 1 as [|x y z He _ IH]; [constructor|].
  econstructor; [|exact IH]. by apply edge_insert_fresh.
Qed.

Lemma pushed_int_all_live s0 v :
  vm_inv s0 → all_live s0 → (stackSize (vm s0) < STACK_MAX)%nat →
  all_live (pushed_int v s0).
Proof.
  intros Hinv Hlive Hsz x. unfold live, live_from, roots, pushed_int. simpl.
  pose proof (malloc_fresh (heap s0)) as Hfresh. set (l := malloc (heap s0)) in *.
  rewrite take_S_insert by (rewrite (inv_stack_length s0 Hinv); lia).
  destruct (decide (x = l)) as [->|Hne].
  - intros _. exists l. split; [|constructor]. apply elem_of_app. right. by left.
  - rewrite lookup_insert_ne by done. intros (r & Hr & Hx)%Hlive.
    exists r. split; [apply elem_of_app; by left | by apply reach_insert_fresh].
Qed.

Lemma pushed_pair_all_live s0 hd tl :
  vm_inv s0 → all_live s0 → (2 ≤ stackSize (vm s0))%nat →
  stack (vm s0) !! (stackSize (vm s0) - 1)%nat = Some tl →
  stack (vm s0) !! (stackSize (vm s0) - 2)%nat = Some hd →
  all_live (pushed_pair hd tl s0).
Proof.
  intros Hinv Hlive Hsz Htl Hhd x. unfold live, live_from, roots, pushed_pair. simpl.
  pose proof (malloc_fresh (heap s0)) as Hfresh. set (l := malloc (heap s0)) in *.
  pose proof (inv_stack_length s0 Hinv) as Hlen. pose proof (inv_stackSize s0 Hinv) as Hmax.
  replace (stackSize (vm s0) - 1)%nat with (S (stackSize (vm s0) - 2)) by lia.
  rewrite take_S_insert by lia.
  set (pair := mkObject (firstObject (vm s0)) false OBJ_PAIR 0 hd tl).
  destruct (decide (x = l)) as [->|Hne].
  { intros _. exists l. split; [|constructor]. apply elem_of_app. right. by left. }
  rewrite lookup_insert_ne by done. intros (r & Hr & Hx)%Hlive.
  apply (reach_insert_fresh _ l pair) in Hx; [|done].
  unfold roots in Hr. apply list_elem_of_lookup in Hr as [i Hi].
  apply lookup_take_Some in Hi as [Hi Hlt].
  assert (edge (<[l := pair]> (heap s0)) l r → ∃ r0, Some r0 ∈ take (stackSize (vm s0) - 2)
            (stack (vm s0)) ++ [Some l] ∧ reach (<[l := pair]> (heap s0)) r0 x) as Hvia.
  { intros He. exists l. split; [apply elem_of_app; right; by left|]. by econstructor. }
  destruct (decide (i < stackSize (vm s0) - 2)%nat) as [Hlow|Hhigh].
  - exists r. split; [|done]. apply elem_of_app. left.
    apply list_elem_of_lookup. exists i. by rewrite lookup_take_lt.
  - apply Hvia. exists pair. rewrite lookup_insert_eq. split; [done|]. split; [done|].
    simpl. destruct (decide (i = stackSize (vm s0) - 2)%nat) as [->|Hi2].
    + left. congruence.
    + right. replace i with (stackSize (vm s0) - 1)%nat in Hi by lia. congruence.
Qed.

Lemma collect_if_due_all_live s s0 :
  vm_inv s → all_live s → collect_if_due s = Ok s0 →
  vm_inv s0 ∧ all_live s0 ∧ numObjects (vm s0) = numObjects (vm s).
Proof.
  intros Hinv Hlive E. pose proof (collect_if_due_Ok s s0 Hinv E) as Hdue.
  apply collect_if_due_cases in E as [[_ ->]|[_ E]]; [done|].
  pose proof (vm_inv_printf "Auto gc is ran" s Hinv) as Hinvp.
  pose proof (gc_Ok _ _ Hinvp E) as Hpost. pose proof (gc_inv _ _ Hpost) as Hinv0.
  assert (∀ l, is_Some (heap s0 !! l) ↔ is_Some (heap s !! l)) as Hdom.
  { intros l. rewrite (gc_alloc _ _ Hpost l). split; [apply (live_alloc _ _ Hinvp)|].
    apply Hlive. }
  split_and!; [done| |].
  - intros l Hl. apply (gc_post_live _ _ Hinvp Hpost), (gc_alloc _ _ Hpost), Hl.
  - destruct Hinv as [(L & Hreg & Hall & Hnum) _ _ _ _ _ _].
    destruct Hinv0 as [(L0 & Hreg0 & Hall0 & Hnum0) _ _ _ _ _ _].
    destruct (registry_enumerates s L Hreg Hall) as (_ & _ & Hlen).
    destruct (registry_enumerates s0 L0 Hreg0 Hall0) as (_ & _ & Hlen0).
    rewrite Hnum, Hnum0, Hlen, Hlen0. f_equal.
    rewrite <- !(size_dom (D := gset loc)). f_equal. apply set_eq. intros l.
    rewrite !elem_of_dom. apply Hdom.
Qed.

Lemma run_alloc_ops ops : ∀ s s',
  vm_inv s → all_live s → forallb is_alloc_op ops = true → run ops s = Ok s' →
  vm_inv s' ∧ all_live s' ∧ numObjects (vm s') = numObjects (vm s) + Z.of_nat (length ops).
Proof.
  induction ops as [|o ops IH]; simpl; intros s s' Hinv Hlive Hops Hrun.
  { simplify_eq. split_and!; try done. lia. }
  apply andb_prop in Hops as [Ho Hops].
  destruct (run_op o s) as [s1| | |] eqn:E1; simpl in Hrun; try done.
  assert (vm_inv s1 ∧ all_live s1 ∧ numObjects (vm s1) = numObjects (vm s) + 1)
    as (Hinv1 & Hlive1 & Hnum1).
  { destruct o as [v| | | |a b|a b]; simpl in Ho, E1; try done.
    - apply pushInt_Ok in E1 as (s0 & E & Hr & Hsz & ->).
      destruct (collect_if_due_all_live s s0 Hinv Hlive E) as (Hinv0 & Hlive0 & Hnum0).
      split_and!; [apply pushed_int_inv; [done|lia|done] |
                   by apply pushed_int_all_live | simpl; lia].
    - destruct (pushPair s) as [[s2 l]| | |] eqn:E2; simpl in E1; try done.
      simplify_eq.
      apply pushPair_Ok in E2 as (s0 & hd & tl & E & Hr & Hsz & _ & Htl & Hhd & _ & ->).
      destruct (collect_if_due_all_live s s0 Hinv Hlive E) as (Hinv0 & Hlive0 & Hnum0).
      split_and!; [apply pushed_pair_inv; [done|lia|done..] |
                   by apply pushed_pair_all_live | simpl; lia]. }
  destruct (IH s1 s' Hinv1 Hlive1 Hops Hrun) as (Hinv' & Hlive' & Hnum').
  split_and!; try done. lia.
Qed.

Lemma newVM_all_live : all_live newVM.
Proof. intros l [o Ho]. simpl in Ho. by rewrite lookup_empty in Ho. Qed.

Lemma nested_state_live : vm_inv nested_state ∧ all_live nested_state.
Proof.
  destruct (run_alloc_ops nested_ops newVM nested_state newVM_inv newVM_all_live)
    as (? & ? & _); [reflexivity | vm_compute; reflexivity | done].
Qed.

(** X7.  When every allocated object can be reached from the stack, a
    collection frees nothing and moves nothing: it returns the state it was
    called in, except that [maxObjects] is now twice [numObjects]. *)
Theorem gc_keeps_a_live_heap (s : State) :
  vm_inv s → all_live s → numObjects (vm s) * 2 ≤ INT_MAX →
  ∃ s', gc s = Ok s' ∧
        heap s' = heap s ∧ stack (vm s') = stack (vm s) ∧
        stackSize (vm s') = stackSize (vm s) ∧
        firstObject (vm s') = firstObject (vm s) ∧
        numObjects (vm s') = numObjects (vm s) ∧
        maxObjects (vm s') = numObjects (vm s) * 2 ∧
        out s' = out s.
Proof.
  intros Hinv Hlive Hfit. eexists. split; [by apply gc_all_live|]. done.
Qed.

Lemma gc_keeps_a_live_heap_witness :
  vm_inv nested_state ∧ all_live nested_state ∧
  numObjects (vm nested_state) * 2 ≤ INT_MAX ∧
  ∃ s', gc nested_state = Ok s' ∧
        heap s' = heap nested_state ∧ stack (vm s') = stack (vm nested_state) ∧
        stackSize (vm s') = stackSize (vm nested_state) ∧
        firstObject (vm s') = firstObject (vm nested_state) ∧
        numObjects (vm s') = numObjects (vm nested_state) ∧
        maxObjects (vm s') = numObjects (vm nested_state) * 2 ∧
        out s' = out nested_state.
Proof.
  destruct nested_state_live as [Hinv Hlive].
  assert (numObjects (vm nested_state) * 2 ≤ INT_MAX) as Hfit
    by (vm_compute; discriminate).
  split; [exact Hinv|]. split; [exact Hlive|]. split; [exact Hfit|].
  exact (gc_keeps_a_live_heap nested_state Hinv Hlive Hfit).
Defined.

(** X8.  Objects that are built by [pushInt] and [pushPair] alone are never
    lost: starting in a state where everything allocated is reachable from
    the stack, after any sequence of such calls [numObjects] has grown by
    exactly the number of calls (the collections triggered on the way freed
    nothing), everything allocated is still reachable from the stack, and a
    forced collection leaves the objects and the counter as they are. *)
Theorem alloc_only_programs_lose_nothing (ops : list Op) (s s' : State) :
  vm_inv s → all_live s → forallb is_alloc_op ops = true → run ops s = Ok s' →
  numObjects (vm s') = numObjects (vm s) + Z.of_nat (length ops) ∧
  Z.of_nat (size (heap s')) = numObjects (vm s) + Z.of_nat (length ops) ∧
  all_live s' ∧
  (numObjects (vm s') * 2 ≤ INT_MAX →
   ∃ s'', gc s' = Ok s'' ∧ heap s'' = heap s' ∧ numObjects (vm s'') = numObjects (vm s')).
Proof.
  intros Hinv Hlive Hops Hrun.
  destruct (run_alloc_ops ops s s' Hinv Hlive Hops Hrun) as (Hinv' & Hlive' & Hnum').
  split_and!; try done.
  - rewrite <- Hnum'. destruct Hinv' as [(L & Hreg & Hall & Hnum) _ _ _ _ _ _].
    destruct (registry_enumerates s' L Hreg Hall) as (_ & _ & Hlen). by rewrite Hnum, Hlen.
  - intros Hfit. eexists. split; [by apply gc_all_live|]. done.
Qed.

Lemma alloc_only_programs_lose_nothing_witness :
  vm_inv newVM ∧ all_live newVM ∧ forallb is_alloc_op nested_ops = true ∧
  run nested_ops newVM = Ok nested_state ∧
  numObjects (vm nested_state)
  = numObjects (vm newVM) + Z.of_nat (length nested_ops) ∧
  Z.of_nat (size (heap nested_state))
  = numObjects (vm newVM) + Z.of_nat (length nested_ops) ∧
  all_live nested_state ∧
  (numObjects (vm nested_state) * 2 ≤ INT_MAX →
   ∃ s'', gc nested_state = Ok s'' ∧
          heap s'' = heap nested_state ∧
          numObjects (vm s'') = numObjects (vm nested_state)).
Proof.
  pose proof newVM_all_live as Hlive.
  assert (forallb is_alloc_op nested_ops = true) as Hops by reflexivity.
  assert (run nested_ops newVM = Ok nested_state) as Hrun
    by (vm_compute; reflexivity).
  split; [exact newVM_inv|]. split; [exact Hlive|]. split; [exact Hops|].
  split; [exact Hrun|].
  exact (alloc_only_programs_lose_nothing nested_ops newVM _ newVM_inv Hlive Hops Hrun).
Defined.

(** ** The threshold *)

Lemma collect_if_due_threshold s s0 :
  vm_inv s → numObjects (vm s) ≤ maxObjects (vm s) ∨ maxObjects (vm s) = 0 →
  collect_if_due s = Ok s0 →
  numObjects (vm s0) + 1 ≤ maxObjects (vm s0) ∨ maxObjects (vm s0) = 0.
Proof.
  intros Hinv Hthr E. pose proof (collect_if_due_Ok s s0 Hinv E) as Hdue.
  pose proof (inv_nonneg s0 (due_inv _ _ Hdue)) as Hpos.
  apply collect_if_due_cases in E as [[Hne ->]|[_ E]]; [lia|].
  apply gc_Ok in E; [|by apply vm_inv_printf].
  pose proof (gc_threshold _ _ E). lia.
Qed.

Lemma step_threshold s s' :
  step s s' → vm_inv s →
  numObjects (vm s) ≤ maxObjects (vm s) ∨ maxObjects (vm s) = 0 →
  numObjects (vm s') ≤ maxObjects (vm s') ∨ maxObjects (vm s') = 0.
Proof.
  intros Hstep Hinv Hthr. destruct Hstep as
    [s v s' E | s s' l E | s s' p E | s l s' Hl E | s s' E | s a b Ha Hb | s a b Ha Hb].
  - apply pushInt_Ok in E as (s0 & E & _ & _ & ->).
    apply (collect_if_due_threshold s s0 Hinv Hthr) in E. simpl. lia.
  - apply pushPair_Ok in E as (s0 & hd & tl & E & _ & _ & _ & _ & _ & _ & ->).
    apply (collect_if_due_threshold s s0 Hinv Hthr) in E. simpl. lia.
  - by apply pop_Ok in E as (_ & _ & ->).
  - by apply push_Ok in E as (_ & ->).
  - pose proof (gc_Ok s s' Hinv E) as Hpost.
    pose proof (inv_nonneg s' (gc_inv _ _ Hpost)). pose proof (gc_threshold _ _ Hpost). lia.
  - done.
  - done.
Qed.

(** X9.  In every state the machine can reach, [numObjects] is at most
    [maxObjects], unless [maxObjects] is 0. *)
Theorem numObjects_within_threshold_unless_zero (s : State) :
  reachable s →
  numObjects (vm s) ≤ maxObjects (vm s) ∨ maxObjects (vm s) = 0.
Proof.
  unfold reachable. intros H.
  assert (vm_inv newVM ∧ (numObjects (vm newVM) ≤ maxObjects (vm newVM) ∨
                          maxObjects (vm newVM) = 0)) as H0.
  { split; [apply newVM_inv|]. left. simpl. unfold INIT_OBJ_NUM_MAX. lia. }
  revert H0. induction H as [|x y z Hxy _ IH]; [tauto|].
  intros [Hinv Hthr]. apply IH. split; [by eapply step_inv | by eapply step_threshold].
Qed.

Lemma numObjects_within_threshold_unless_zero_witness :
  reachable full_state ∧
  (numObjects (vm full_state) ≤ maxObjects (vm full_state) ∨ maxObjects (vm full_state) = 0).
Proof.
  split; [exact full_state_reachable|].
  exact (numObjects_within_threshold_unless_zero full_state full_state_reachable).
Defined.

(** ** Calls that do not collect *)

Lemma keeps_objects_refl h : keeps_objects h h.
Proof. by intros l. Qed.

Lemma keeps_objects_trans h1 h2 h3 :
  keeps_objects h1 h2 → keeps_objects h2 h3 → keeps_objects h1 h3.
Proof. intros H1 H2 l Hl. auto. Qed.

Lemma keeps_objects_insert h l o : keeps_objects h (<[l := o]> h).
Proof. intros x Hx. apply lookup_insert_is_Some'. by right. Qed.

Lemma keeps_objects_alter h f l : keeps_objects h (alter f l h).
Proof. intros x Hx. by apply lookup_alter_is_Some. Qed.

(** A call other than [gc], made when the two counters differ. *)
Lemma run_op_quiet o s s' :
  is_mutator_op o = true → numObjects (vm s) ≠ maxObjects (vm s) →
  run_op o s = Ok s' →
  out s' = out s ∧ maxObjects (vm s') = maxObjects (vm s) ∧
  numObjects (vm s) ≤ numObjects (vm s') ≤ numObjects (vm s) + 1 ∧
  keeps_objects (heap s) (heap s').
Proof.
  intros Ho Hne E. destruct o as [v| | | |a b|a b]; simpl in Ho, E; try done.
  - apply pushInt_Ok in E as (s0 & E & _ & _ & ->).
    apply collect_if_due_cases in E as [[_ ->]|[? _]]; [|done]. simpl.
    split_and!; try done; try lia. apply keeps_objects_insert.
  - destruct (pushPair s) as [[s2 l]| | |] eqn:E2; simpl in E; try done. simplify_eq.
    apply pushPair_Ok in E2 as (s0 & hd & tl & E & _ & _ & _ & _ & _ & _ & ->).
    apply collect_if_due_cases in E as [[_ ->]|[? _]]; [|done]. simpl.
    split_and!; try done; try lia. apply keeps_objects_insert.
  - destruct (pop s) as [[s2 p]| | |] eqn:E2; simpl in E; try done. simplify_eq.
    apply pop_Ok in E2 as (_ & _ & ->). simpl.
    split_and!; try done; try lia. apply keeps_objects_refl.
  - destruct (_ && _); [|done]. simplify_eq. simpl.
    split_and!; try done; try lia. apply keeps_objects_alter.
  - destruct (_ && _); [|done]. simplify_eq. simpl.
    split_and!; try done; try lia. apply keeps_objects_alter.
Qed.

Lemma run_above_threshold ops : ∀ s s',
  forallb is_mutator_op ops = true → maxObjects (vm s) < numObjects (vm s) →
  run ops s = Ok s' →
  out s' = out s ∧ maxObjects (vm s') = maxObjects (vm s) ∧
  numObjects (vm s) ≤ numObjects (vm s') ∧ keeps_objects (heap s) (heap s').
Proof.
  induction ops as [|o ops IH]; simpl; intros s s' Hops Hgt Hrun.
  { simplify_eq. split_and!; try done; try lia. apply keeps_objects_refl. }
  apply andb_prop in Hops as [Ho Hops].
  destruct (run_op o s) as [s1| | |] eqn:E1; simpl in Hrun; try done.
  destruct (run_op_quiet o s s1 Ho) as (Hout1 & Hmax1 & Hnum1 & Hkeep1); [lia|done|].
  destruct (IH s1 s' Hops) as (Hout & Hmax & Hnum & Hkeep); [lia|done|].
  split_and!; [congruence | congruence | lia | by eapply keeps_objects_trans].
Qed.

Lemma run_below_threshold ops : ∀ s s',
  forallb is_mutator_op ops = true →
  numObjects (vm s) + Z.of_nat (length ops) ≤ maxObjects (vm s) →
  run ops s = Ok s' →
  out s' = out s ∧ maxObjects (vm s') = maxObjects (vm s) ∧
  numObjects (vm s') ≤ numObjects (vm s) + Z.of_nat (length ops) ∧
  keeps_objects (heap s) (heap s').
Proof.
  induction ops as [|o ops IH]; simpl; intros s s' Hops Hle Hrun.
  { simplify_eq. split_and!; try done; try lia. apply keeps_objects_refl. }
  apply andb_prop in Hops as [Ho Hops].
  destruct (run_op o s) as [s1| | |] eqn:E1; simpl in Hrun; try done.
  destruct (run_op_quiet o s s1 Ho) as (Hout1 & Hmax1 & Hnum1 & Hkeep1); [lia|done|].
  destruct (IH s1 s' Hops) as (Hout & Hmax & Hnum & Hkeep); [lia|done|].
  split_and!; [congruence | congruence | lia | by eapply keeps_objects_trans].
Qed.

(** X10.  Once [numObjects] is above [maxObjects], no call other than [gc]
    itself collects any more: after any sequence of [pushInt], [pushPair],
    [pop] and field assignments the output has no new notice, every object
    that was allocated still is, the threshold is the same and [numObjects]
    is still above it. *)
Theorem no_automatic_collection_above_threshold (ops : list Op) (s s' : State) :
  forallb is_mutator_op ops = true →
  maxObjects (vm s) < numObjects (vm s) →
  run ops s = Ok s' →
  out s' = out s ∧ keeps_objects (heap s) (heap s') ∧
  maxObjects (vm s') = maxObjects (vm s) ∧
  maxObjects (vm s') < numObjects (vm s').
Proof.
  intros Hops Hgt Hrun.
  destruct (run_above_threshold ops s s' Hops Hgt Hrun) as (Hout & Hmax & Hnum & Hkeep).
  split_and!; try done. lia.
Qed.

Lemma no_automatic_collection_above_threshold_witness :
  forallb is_mutator_op (popped_ops ++ nested_ops) = true ∧
  maxObjects (vm above_state) < numObjects (vm above_state) ∧
  run (popped_ops ++ nested_ops) above_state
  = Ok (unwrap newVM (run (popped_ops ++ nested_ops) above_state)) ∧
  out (unwrap newVM (run (popped_ops ++ nested_ops) above_state)) = out above_state ∧
  keeps_objects (heap above_state)
    (heap (unwrap newVM (run (popped_ops ++ nested_ops) above_state))) ∧
  maxObjects (vm (unwrap newVM (run (popped_ops ++ nested_ops) above_state)))
  = maxObjects (vm above_state) ∧
  maxObjects (vm (unwrap newVM (run (popped_ops ++ nested_ops) above_state)))
  < numObjects (vm (unwrap newVM (run (popped_ops ++ nested_ops) above_state))).
Proof.
  assert (forallb is_mutator_op (popped_ops ++ nested_ops) = true) as Hops by reflexivity.
  assert (maxObjects (vm above_state) < numObjects (vm above_state)) as Hgt
    by (vm_compute; reflexivity).
  assert (run (popped_ops ++ nested_ops) above_state
          = Ok (unwrap newVM (run (popped_ops ++ nested_ops) above_state))) as Hrun
    by (vm_compute; reflexivity).
  split; [exact Hops|]. split; [exact Hgt|]. split; [exact Hrun|].
  exact (no_automatic_collection_above_threshold _ above_state _ Hops Hgt Hrun).
Defined.

(** X11.  While [numObjects] is below [maxObjects] nothing is collected: a
    sequence of calls other than [gc] that is no longer than the distance
    between the two counters prints no notice and frees no object. *)
Theorem no_collection_below_threshold (ops : list Op) (s s' : State) :
  forallb is_mutator_op ops = true →
  numObjects (vm s) + Z.of_nat (length ops) ≤ maxObjects (vm s) →
  run ops s = Ok s' →
  out s' = out s ∧ keeps_objects (heap s) (heap s') ∧
  maxObjects (vm s') = maxObjects (vm s) ∧
  numObjects (vm s') ≤ maxObjects (vm s').
Proof.
  intros Hops Hle Hrun.
  destruct (run_below_threshold ops s s' Hops Hle Hrun) as (Hout & Hmax & Hnum & Hkeep).
  split_and!; try done. lia.
Qed.

Lemma no_collection_below_threshold_witness :
  forallb is_mutator_op cycle_ops = true ∧
  numObjects (vm newVM) + Z.of_nat (length cycle_ops) ≤ maxObjects (vm newVM) ∧
  run cycle_ops newVM = Ok cycle_state ∧
  out cycle_state = out newVM ∧ keeps_objects (heap newVM) (heap cycle_state) ∧
  maxObjects (vm cycle_state) = maxObjects (vm newVM) ∧
  numObjects (vm cycle_state) ≤ maxObjects (vm cycle_state).
Proof.
  assert (forallb is_mutator_op cycle_ops = true) as Hops by reflexivity.
  assert (numObjects (vm newVM) + Z.of_nat (length cycle_ops) ≤ maxObjects (vm newVM))
    as Hle by (vm_compute; discriminate).
  split; [exact Hops|]. split; [exact Hle|]. split; [exact cycle_state_run|].
  exact (no_collection_below_threshold cycle_ops newVM cycle_state Hops Hle cycle_state_run).
Defined.

(** ** What a collection leaves of the object graph *)

(** X12.  A collection does not change what the program can see from the
    stack: the roots are the same, and from every root the same objects are
    reachable afterwards as before, each with the type, value, head and tail
    it had. *)
Theorem gc_preserves_the_reachable_graph (s s' : State) :
  vm_inv s → gc s = Ok s' →
  roots s' = roots s ∧
  (∀ r x, Some r ∈ roots s → (reach (heap s') r x ↔ reach (heap s) r x)) ∧
  (∀ x, live s' x ↔ live s x) ∧
  (∀ x o, live s x → heap s !! x = Some o →
          ∃ o', heap s' !! x = Some o' ∧ same_payload o o').
Proof.
  intros Hinv E. pose proof (gc_Ok s s' Hinv E) as Hpost.
  assert (roots s' = roots s) as Hroots.
  { unfold roots. by rewrite (gc_stack _ _ Hpost), (gc_stackSize _ _ Hpost). }
  assert (∀ r x, Some r ∈ roots s → (reach (heap s') r x ↔ reach (heap s) r x)) as Hreach.
  { intros r x Hr. split; intros Hx.
    - eapply reach_transfer; [exact Hx|]. intros a b _ (o' & Ho' & Hty' & Hc').
      assert (live s a) as Hla by (apply (gc_alloc _ _ Hpost); eauto).
      destruct (live_alloc s a Hinv Hla) as [o Ho].
      destruct (gc_payload _ _ Hpost a o Ho Hla) as (o2 & Ho2 & Hty & _ & Hh & Ht).
      simplify_eq. exists o. rewrite <- Hty, <- Hh, <- Ht. done.
    - eapply reach_transfer; [exact Hx|]. intros a b Ha (o & Ho & Hty & Hc).
      destruct (gc_payload _ _ Hpost a o Ho) as (o' & Ho' & Hty' & _ & Hh & Ht).
      { exists r. done. }
      exists o'. by rewrite Hty', Hh, Ht. }
  split_and!; try done.
  - intros x. unfold live, live_from. rewrite Hroots. split.
    + intros (r & Hr & Hx). exists r. split; [done|]. by apply Hreach.
    + intros (r & Hr & Hx). exists r. split; [done|]. by apply Hreach.
  - intros x o Hl Ho. by apply (gc_payload _ _ Hpost).
Qed.

Lemma gc_preserves_the_reachable_graph_witness :
  vm_inv full_state ∧ gc full_state = Ok (unwrap newVM (gc full_state)) ∧
  roots (unwrap newVM (gc full_state)) = roots full_state ∧
  (∀ r x, Some r ∈ roots full_state →
          (reach (heap (unwrap newVM (gc full_state))) r x ↔ reach (heap full_state) r x)) ∧
  (∀ x, live (unwrap newVM (gc full_state)) x ↔ live full_state x) ∧
  (∀ x o, live full_state x → heap full_state !! x = Some o →
          ∃ o', heap (unwrap newVM (gc full_state)) !! x = Some o' ∧ same_payload o o').
Proof.
  assert (vm_inv full_state) as Hinv by apply reachable_inv, full_state_reachable.
  assert (gc full_state = Ok (unwrap newVM (gc full_state))) as E
    by (vm_compute; reflexivity).
  split; [exact Hinv|]. split; [exact E|].
  exact (gc_preserves_the_reachable_graph full_state _ Hinv E).
Defined.

(** ** [sweep] without a mark phase *)

Lemma filter_none {A} (P : A → Prop) `{∀ x, Decision (P x)} (l : list A) :
  (∀ x, x ∈ l → ¬ P x) → filter P l = [].
Proof.
  induction l as [|a l IH]; intros Hp; [done|].
  rewrite filter_cons_False by (apply Hp; by left).
  apply IH. intros x Hx. apply Hp. by right.
Qed.

(** X13.  [sweep] relies on the mark phase that [gc] runs before it: called
    on its own between two operations, when no object is marked, it frees
    every object, also those on the stack, and leaves an empty registry and
    a count of 0. *)
Theorem sweep_without_marks_frees_everything (s : State) :
  vm_inv s →
  ∃ s', sweep s = Ok s' ∧ heap s' = ∅ ∧ firstObject (vm s') = None ∧
        numObjects (vm s') = 0 ∧ stack (vm s') = stack (vm s) ∧
        stackSize (vm s') = stackSize (vm s).
Proof.
  intros [(L & Hreg & Hall & Hnum) Hu _ _ _ _ Hrange].
  destruct (sweep_spec s L Hreg) as (s' & E & _ & Hpost); [unfold INT_MIN; lia|].
  destruct (sweep_survivors s L s' Hreg Hall Hpost) as (Hsurv & _).
  destruct Hpost as ((p' & Hrd' & Hreg') & _ & _ & _ & _ & Hnum' & _ & Hstk & Hsz & _).
  rewrite filter_none in Hreg', Hnum'
    by (intros x _; by apply unmarked_heap_not_marked).
  simpl in Hrd', Hreg', Hnum'. simplify_eq. exists s'. split_and!; try done.
  - apply map_empty. intros l. destruct (heap s' !! l) as [o|] eqn:Ho; [|done].
    destruct (unmarked_heap_not_marked (heap s) l Hu). apply Hsurv. eauto.
  - lia.
Qed.

Lemma sweep_without_marks_frees_everything_witness :
  vm_inv cycle_state ∧
  ∃ s', sweep cycle_state = Ok s' ∧ heap s' = ∅ ∧ firstObject (vm s') = None ∧
        numObjects (vm s') = 0 ∧ stack (vm s') = stack (vm cycle_state) ∧
        stackSize (vm s') = stackSize (vm cycle_state).
Proof.
  assert (vm_inv cycle_state) as Hinv by apply reachable_inv, cycle_state_reachable.
  split; [exact Hinv|]. exact (sweep_without_marks_frees_everything cycle_state Hinv).
Defined.
